(** * SRT core runtime primitives: time source, condition waits, message
      names and the sender loss list.

    The development has three parts.  Part I is the embedding: the functions
    of [srtcore/sync.cpp] and [srtcore/common.cpp] as Rocq functions over
    [Z] with the 64-bit wrap-around written out, the condition variable as
    state passing over an explicit world, and the sender loss list (whose
    implementation file is not among the sources) modelled from the
    specification.  Part II states and proves the properties of the
    specification; Part III proves further properties that the code
    itself shows. *)

From Stdlib Require Import ZArith List String Ascii Bool Lia.
Import ListNotations.
Local Open Scope Z_scope.

(* ================================================================== *)
(** * Part I.  The embedding                                           *)
(* ================================================================== *)

(** ** Machine integers *)

(** [int64_t]: two's complement, 64 bits.  Signed overflow is undefined
    behaviour in C++; the model wraps, and the theorems say when no wrap
    occurs. *)
Module Int64.
Definition min_signed : Z := - 2 ^ 63.
Definition max_signed : Z := 2 ^ 63 - 1.
Definition in_range (z : Z) : Prop := min_signed <= z <= max_signed.
Definition wrap (z : Z) : Z := (z + 2 ^ 63) mod 2 ^ 64 - 2 ^ 63.
Definition mul (a b : Z) : Z := wrap (a * b).
Definition sub (a b : Z) : Z := wrap (a - b).
(** [/] on signed operands truncates toward zero. *)
Definition div (a b : Z) : Z := wrap (Z.quot a b).
End Int64.

(** [uint64_t] and [size_t]: arithmetic modulo [2^64]. *)
Module UInt64.
Definition modulus : Z := 2 ^ 64.
Definition in_range (z : Z) : Prop := 0 <= z < modulus.
Definition wrap (z : Z) : Z := z mod modulus.
Definition add (a b : Z) : Z := wrap (a + b).
Definition sub (a b : Z) : Z := wrap (a - b).
Definition mul (a b : Z) : Z := wrap (a * b).
Definition div (a b : Z) : Z := a / b.
Definition rem (a b : Z) : Z := a mod b.
End UInt64.

(** ** Output string streams *)

(** What [FormatTime] uses of [std::ostringstream]: the buffer, the fill
    character set by [setfill] (it stays set) and the field width set by
    [setw] (it applies to the next inserted item and is then reset).  Items
    are right-justified, which is the default adjustment. *)
Module OStream.

Record ostringstream : Type :=
  { buf : string; fill : ascii; width : nat }.

Definition empty : ostringstream :=
  {| buf := EmptyString; fill := " "%char; width := 0 |}.

Definition setfill (c : ascii) (os : ostringstream) : ostringstream :=
  {| buf := buf os; fill := c; width := width os |}.

Definition setw (n : nat) (os : ostringstream) : ostringstream :=
  {| buf := buf os; fill := fill os; width := n |}.

Fixpoint replicate (n : nat) (c : ascii) : string :=
  match n with
  | O => EmptyString
  | S k => String c (replicate k c)
  end.

Definition put_string (s : string) (os : ostringstream) : ostringstream :=
  {| buf := buf os ++ replicate (width os - String.length s) (fill os) ++ s;
     fill := fill os;
     width := 0 |}.

Definition digit (d : Z) : ascii := ascii_of_nat (48 + Z.to_nat d).

(** Decimal digits of a non-negative number, most significant first; a
    [uint64_t] has at most 20 of them. *)
Fixpoint dec_digits (fuel : nat) (n : Z) (acc : string) : string :=
  match fuel with
  | O => acc
  | S k =>
      let acc' := String (digit (n mod 10)) acc in
      if n <? 10 then acc' else dec_digits k (n / 10) acc'
  end.

Definition dec (n : Z) : string := dec_digits 20 n EmptyString.

Definition put_uint64 (n : Z) (os : ostringstream) : ostringstream :=
  put_string (dec n) os.

Definition str (os : ostringstream) : string := buf os.

End OStream.

Notation "os <<< f" := (f os) (at level 41, left associativity, only parsing).

(** ** [srtcore/sync.cpp]: durations and time points *)

Module Sync.

(** A [steady_clock::duration] is its [int64_t] tick count, a
    [steady_clock::time_point] its [uint64_t] field [m_timestamp]. *)
Definition duration := Z.
Definition time_point := Z.

(** Modelled from the spec: the distinguished zero time point is the one
    whose tick count is zero; [is_zero] is declared in [sync.h], which is
    not among the sources. *)
Definition is_zero (t : time_point) : bool := t =? 0.

(** Modelled from the spec: time points are ordered by their 64-bit tick
    counts; [operator>=] of [TimePoint] is declared in [sync.h], which is
    missing. *)
Definition tp_ge (a b : time_point) : bool := b <=? a.

(** Modelled from the spec: the difference of two time points is a
    [Duration], a signed 64-bit tick count; [operator-] of [TimePoint] is
    declared in [sync.h], which is missing. *)
Definition tp_sub (a b : time_point) : duration := Int64.wrap (a - b).

Section Frequency.

(** [s_cpu_frequency], ticks per microsecond: the value
    [get_cpu_frequency()] returned at start-up.  It depends on the
    platform counter, so it is a parameter of everything below. *)
Variable s_cpu_frequency : Z.

Definition count_microseconds (t : duration) : Z :=
  Int64.div t s_cpu_frequency.

Definition count_milliseconds (t : duration) : Z :=
  Int64.div (Int64.div t s_cpu_frequency) 1000.

Definition count_seconds (t : duration) : Z :=
  Int64.div (Int64.div t s_cpu_frequency) 1000000.

Definition microseconds_from (t_us : Z) : duration :=
  Int64.mul t_us s_cpu_frequency.

Definition milliseconds_from (t_ms : Z) : duration :=
  Int64.mul (Int64.mul 1000 t_ms) s_cpu_frequency.

Definition seconds_from (t_s : Z) : duration :=
  Int64.mul (Int64.mul 1000000 t_s) s_cpu_frequency.

(** [TimePoint::us_since_epoch]: [m_timestamp / s_cpu_frequency], an
    unsigned division (the signed frequency is converted to
    [uint64_t]). *)
Definition us_since_epoch (m_timestamp : time_point) : Z :=
  UInt64.div m_timestamp (UInt64.wrap s_cpu_frequency).

Definition FormatTime (timestamp : time_point) : string :=
  if is_zero timestamp then "00:00:00.000000"%string
  else
    let total_us := us_since_epoch timestamp in
    let us := UInt64.rem total_us 1000000 in
    let total_sec := UInt64.div total_us 1000000 in
    let days := UInt64.div total_sec (60 * 60 * 24) in
    let hours :=
      UInt64.sub (UInt64.div total_sec (60 * 60)) (UInt64.mul days 24) in
    let minutes :=
      UInt64.sub
        (UInt64.sub (UInt64.div total_sec 60)
                    (UInt64.mul (UInt64.mul days 24) 60))
        (UInt64.mul hours 60) in
    let seconds :=
      UInt64.sub
        (UInt64.sub
           (UInt64.sub total_sec
              (UInt64.mul (UInt64.mul (UInt64.mul days 24) 60) 60))
           (UInt64.mul (UInt64.mul hours 60) 60))
        (UInt64.mul minutes 60) in
    let out := OStream.empty in
    let out :=
      if days =? 0 then out
      else out <<< OStream.put_uint64 days <<< OStream.put_string "D " in
    OStream.str
      (out <<< OStream.setfill "0" <<< OStream.setw 2
           <<< OStream.put_uint64 hours <<< OStream.put_string ":"
           <<< OStream.setfill "0" <<< OStream.setw 2
           <<< OStream.put_uint64 minutes <<< OStream.put_string ":"
           <<< OStream.setfill "0" <<< OStream.setw 2
           <<< OStream.put_uint64 seconds <<< OStream.put_string "."
           <<< OStream.setfill "0" <<< OStream.setw 6
           <<< OStream.put_uint64 us <<< OStream.put_string " [STD]").

End Frequency.

End Sync.

(** ** The time format in the words of the specification *)

(** The reference the rendering of [FormatTime] is compared with: fields
    of a fixed number of digits, computed from the microsecond count with
    quotients and remainders. *)
Module SyncSpec.

(** [n] written with exactly [k] decimal digits, zero-padded on the
    left (the low [k] digits of [n]). *)
Fixpoint fixed (k : nat) (n : Z) : string :=
  match k with
  | O => EmptyString
  | S k' => fixed k' (n / 10) ++ String (OStream.digit (n mod 10)) EmptyString
  end.

(** The number of digits of the decimal numeral of [n]: the least
    [k >= 1] with [n < 10^k], searched from [k] upwards. *)
Fixpoint digits_from (fuel : nat) (k : nat) (n : Z) : nat :=
  match fuel with
  | O => k
  | S fuel' => if n <? 10 ^ Z.of_nat k then k else digits_from fuel' (S k) n
  end.

(** The decimal numeral of [n], without leading zeros. *)
Definition numeral (n : Z) : string := fixed (digits_from 20 1 n) n.

(** [[DDD ]HH:MM:SS.uuuuuu [STD]]: the day count followed by [D] and a
    space, left out when the day count is zero; hours, minutes and
    seconds on two digits; microseconds on six. *)
Definition FormatTime_spec (cpu_frequency : Z) (tp : Z) : string :=
  if tp =? 0 then "00:00:00.000000"%string
  else
    let total_us := tp / cpu_frequency in
    let days := total_us / 86400000000 in
    ((if (days =? 0)%Z then EmptyString else numeral days ++ "D ")
     ++ fixed 2 ((total_us / 3600000000) mod 24)%Z ++ ":"
     ++ fixed 2 ((total_us / 60000000) mod 60)%Z ++ ":"
     ++ fixed 2 ((total_us / 1000000) mod 60)%Z ++ "."
     ++ fixed 6 (total_us mod 1000000)%Z ++ " [STD]")%string.

End SyncSpec.

(** ** [srtcore/sync.cpp]: the condition variable *)

(** The pthread calls and the clocks are the environment.  A [World] holds
    what the environment will answer (the successive values of the tick
    counter, of the system clock and of [pthread_cond_timedwait]) together
    with how far each has been consumed, and the log of timed waits that
    were performed.  The code is written in a state monad over it. *)
Module Cond.

Record timespec : Type := { tv_sec : Z; tv_nsec : Z }.

Record World : Type :=
  { tsc : nat -> Z;               (* values read by rdtsc, in order *)
    tsc_reads : nat;
    clock : nat -> timespec;      (* values read by clock_gettime, in order *)
    clock_reads : nat;
    timedwait_rc : nat -> Z;      (* results of pthread_cond_timedwait *)
    timedwaits : list (Z * timespec) (* mutex and deadline, latest first *) }.

Definition M (A : Type) : Type := World -> A * World.
Definition ret {A} (a : A) : M A := fun w => (a, w).
Definition bind {A B} (m : M A) (k : A -> M B) : M B :=
  fun w => let (a, w') := m w in k a w'.

Declare Scope cond_scope.
Delimit Scope cond_scope with cond.
Notation "x <- m ;; k" := (bind m (fun x => k))
  (at level 61, m at next level, right associativity) : cond_scope.
Local Open Scope cond_scope.

(** [rdtsc(x)]: whichever counter the platform has, the result is a
    [uint64_t]. *)
Definition rdtsc : M Z := fun w =>
  (UInt64.wrap (tsc w (tsc_reads w)),
   {| tsc := tsc w; tsc_reads := S (tsc_reads w);
      clock := clock w; clock_reads := clock_reads w;
      timedwait_rc := timedwait_rc w; timedwaits := timedwaits w |}).

Definition clock_gettime : M timespec := fun w =>
  (clock w (clock_reads w),
   {| tsc := tsc w; tsc_reads := tsc_reads w;
      clock := clock w; clock_reads := S (clock_reads w);
      timedwait_rc := timedwait_rc w; timedwaits := timedwaits w |}).

Definition pthread_cond_timedwait (mutex : Z) (abstime : timespec) : M Z :=
  fun w =>
  (timedwait_rc w (List.length (timedwaits w)),
   {| tsc := tsc w; tsc_reads := tsc_reads w;
      clock := clock w; clock_reads := clock_reads w;
      timedwait_rc := timedwait_rc w;
      timedwaits := (mutex, abstime) :: timedwaits w |}).

Definition us_to_timespec (time_us : Z) : timespec :=
  {| tv_sec := UInt64.div time_us 1000000;
     tv_nsec := UInt64.mul (UInt64.rem time_us 1000000) 1000 |}.

(** [steady_clock::now()] *)
Definition now : M Sync.time_point := x <- rdtsc ;; ret x.

Section Platform.

Variable s_cpu_frequency : Z.
(** The [errno] value [ETIMEDOUT] of the platform. *)
Variable ETIMEDOUT : Z.

(** [Condition::wait_for], the branch that reads the clock with
    [clock_gettime]; the [gettimeofday] branch computes [now_us] from a
    [timeval] in the same way.  The lock is represented by its mutex. *)
Definition wait_for (lock : Z) (rel_time : Sync.duration) : M bool :=
  timeout <- clock_gettime ;;
  let now_us :=
    UInt64.add (UInt64.mul (UInt64.wrap (tv_sec timeout)) 1000000)
               (UInt64.wrap (Z.quot (tv_nsec timeout) 1000)) in
  let timeout :=
    us_to_timespec
      (UInt64.add now_us
         (UInt64.wrap (Sync.count_microseconds s_cpu_frequency rel_time))) in
  rc <- pthread_cond_timedwait lock timeout ;;
  ret (negb (rc =? ETIMEDOUT)).

(** [Condition::wait_until] *)
Definition wait_until (lock : Z) (timeout_time : Sync.time_point) : M bool :=
  now <- now ;;
  if Sync.tp_ge now timeout_time then ret false
  else wait_for lock (Sync.tp_sub timeout_time now).

End Platform.

End Cond.

(** ** [srtcore/common.cpp]: message type names *)

Module Common.

(** Reading a C array: inside the bounds the element, outside undefined
    behaviour, which the model reports with the index and the size. *)
Inductive access : Type :=
| Value (s : string)
| OutOfBounds (index size : Z).

(** [Size(arr)], the number of elements of an array; the template is in
    [utilities.h], which is not among the sources. *)
Definition Size (arr : list string) : Z := Z.of_nat (List.length arr).

Definition index (arr : list string) (i : Z) : access :=
  if i <? 0 then OutOfBounds i (Size arr)
  else match nth_error arr (Z.to_nat i) with
       | Some s => Value s
       | None => OutOfBounds i (Size arr)
       end.

(** Conversion of an [int]-valued enumerator to [size_t]. *)
Definition size_t (x : Z) : Z := UInt64.wrap x.

Definition udt_types : list string :=
  [ "handshake"; "keepalive"; "ack"; "lossreport"; "cgwarning";
    "shutdown"; "ackack"; "dropreq"; "peererror" ]%string.

Definition srt_types : list string :=
  [ "EXT:none"; "EXT:hsreq"; "EXT:hsrsp"; "EXT:kmreq"; "EXT:kmrsp";
    "EXT:sid"; "EXT:congctl"; "EXT:group" ]%string.

Section MessageTypes.

(** The enumerator [UMSG_EXT] of [UDTMessageType] is declared in a
    header that is not among the sources; it is a parameter. *)
Variable UMSG_EXT : Z.

Definition MessageTypeStr (mt : Z) (extt : Z) : access :=
  if mt =? UMSG_EXT then
    if Size srt_types <=? extt then Value "EXT:unknown"
    else index srt_types extt
  else if Size udt_types <? size_t mt then Value "unknown"
  else index udt_types mt.

End MessageTypes.

End Common.

(** ** Sequence numbers *)

(** The sequence-number helpers live in [common.h], which is not among the
    sources. *)
Module SeqNo.

(** Modelled from the spec: the signed value of a 31-bit quantity, on
    the window from [-2^30] to [2^30 - 1]; [common.h] is missing. *)
Definition signed31 (z : Z) : Z :=
  let r := z mod 2 ^ 31 in
  if r <? 2 ^ 30 then r else r - 2 ^ 31.

(** Modelled from the spec: [seqoff(a,b) = b - a (mod 2^31)] taken as
    signed; [common.h] is missing. *)
Definition seqoff (a b : Z) : Z := signed31 (b - a).

(** Modelled from the spec: [seqcmp] computes the signed 31-bit
    difference, and [a < b] iff [seqcmp(a,b) < 0]; [common.h] is
    missing. *)
Definition seqcmp (a b : Z) : Z := signed31 (a - b).

(** Modelled from the spec: the successor of a 31-bit unsigned integer
    with wrap-around; [common.h] is missing. *)
Definition incseq (s : Z) : Z := (s + 1) mod 2 ^ 31.

(** Modelled from the spec: [tail - head + 1], the number of sequence
    numbers of the closed range from [head] to [tail]; [common.h] is
    missing. *)
Definition seqlen (a b : Z) : Z := seqoff a b + 1.

(** Modelled from the spec: the smaller of two sequence numbers in
    modular order, with which a range is extended to cover another;
    [common.h] is missing. *)
Definition seqmin (a b : Z) : Z := if seqcmp a b <=? 0 then a else b.

(** Modelled from the spec: the larger of two sequence numbers in modular
    order; [common.h] is missing. *)
Definition seqmax (a b : Z) : Z := if seqcmp a b <=? 0 then b else a.

(** Modelled from the spec: a sequence number is a 31-bit unsigned
    integer; [common.h] is missing. *)
Definition seqno (x : Z) : Prop := 0 <= x < 2 ^ 31.

End SeqNo.

(** ** The sender loss list *)

(** [CSndLossList] is implemented in [list.cpp], which is not among the
    sources: only its tests are.  The model follows the specification.
    The chain of entries linked by [next] from [head_ptr] is the list
    [entries], in chain order; [last_insert_ptr] is the position of the
    cached entry in the chain. *)
Module SndLossList.

Import SeqNo.

(** Modelled from the spec: a loss list entry, the range from [head] to
    [tail]; its [next] reference is its successor in the list [entries];
    [list.h] is missing. *)
Record Range : Type := { head : Z; tail : Z }.

(** Modelled from the spec: the capacity fixed at construction, the chain
    from [head_ptr], the scalar [length] and [last_insert_ptr]; [list.h]
    is missing. *)
Record t : Type :=
  { capacity : Z;
    entries : list Range;
    length : Z;
    last_insert : option nat }.

(** Modelled from the spec: [SndLossList(capacity)] initializes
    [length=0], [head_ptr=none], [last_insert_ptr=none]; [list.cpp] is
    missing. *)
Definition new (cap : Z) : t :=
  {| capacity := cap; entries := []; length := 0; last_insert := None |}.

(** Modelled from the spec: [getLossLength()] returns the current
    [length]; [list.cpp] is missing. *)
Definition getLossLength (s : t) : Z := length s.

(** Modelled from the spec: invalidated [last_insert_ptr] references are
    repointed to [head_ptr] or cleared.  This is the cache after [n]
    entries were unlinked at the head of the chain, [rest] being what
    remains; [list.cpp] is missing. *)
Definition repoint (n : nat) (rest : list Range) (c : option nat)
  : option nat :=
  match c with
  | None => None
  | Some k =>
      if (k <? n)%nat then
        match rest with [] => None | _ :: _ => Some O end
      else Some (k - n)%nat
  end.

(** Modelled from the spec: [popLostSeq()] removes and returns the
    smallest sequence number, [-1] iff the list is empty; it decrements
    [length] by one; if the removed sequence was the sole element of its
    range it unlinks that range and advances [head_ptr], otherwise it
    increments the range's [head] by one; [list.cpp] is missing. *)
Definition popLostSeq (s : t) : Z * t :=
  match entries s with
  | [] => (-1, s)
  | r :: rest =>
      if head r =? tail r then
        (head r,
         {| capacity := capacity s; entries := rest;
            length := length s - 1;
            last_insert := repoint 1 rest (last_insert s) |})
      else
        (head r,
         {| capacity := capacity s;
            entries := {| head := incseq (head r); tail := tail r |} :: rest;
            length := length s - 1;
            last_insert := last_insert s |})
  end.

(** Modelled from the spec: the walk of [remove] along the chain, range
    by range as described at [remove] below; it returns the chain, the
    length and the number of unlinked entries; [list.cpp] is missing. *)
Fixpoint remove_scan (seq : Z) (l : list Range) (len : Z) (unlinked : nat)
  : list Range * Z * nat :=
  match l with
  | [] => ([], len, unlinked)
  | r :: rest =>
      if seqcmp (tail r) seq <=? 0 then
        remove_scan seq rest (len - seqlen (head r) (tail r)) (S unlinked)
      else if seqcmp (head r) seq <=? 0 then
        ({| head := incseq seq; tail := tail r |} :: rest,
         len - seqlen (head r) seq, unlinked)
      else (r :: rest, len, unlinked)
  end.

(** Modelled from the spec: [remove(seq)] drops every sequence number
    [s <= seq]: a range with [t <= seq] is unlinked and [t - h + 1] is
    subtracted from [length]; a range with [h <= seq < t] gets
    [h := seq + 1] and [seq - h + 1] is subtracted; at a range with
    [h > seq] the walk stops.  With [seq] in the past of the current head
    (negative offset) it is a no-op.  Invalidated [last_insert_ptr]
    references are repointed to [head_ptr] or cleared; [list.cpp] is
    missing. *)
Definition remove (s : t) (seq : Z) : t :=
  match entries s with
  | [] => s
  | r :: _ =>
      if seqoff (head r) seq <? 0 then s
      else
        let '(l, len, unlinked) := remove_scan seq (entries s) (length s) O in
        {| capacity := capacity s; entries := l; length := len;
           last_insert := repoint unlinked l (last_insert s) |}
  end.

(** Modelled from the spec: step 2 of the insertion, scan forward from
    [last_insert_ptr] if [seq_lo >= last_insert_ptr.head], else from
    [head_ptr]; the cache is a hint and is validated on use.  The result
    is the part of the chain before the starting entry and the part from
    it on; [list.cpp] is missing. *)
Definition scan_start (s : t) (seq_lo : Z) : list Range * list Range :=
  match last_insert s with
  | None => ([], entries s)
  | Some k =>
      match nth_error (entries s) k with
      | None => ([], entries s)
      | Some c =>
          if 0 <=? seqcmp seq_lo (head c)
          then (firstn k (entries s), skipn k (entries s))
          else ([], entries s)
      end
  end.

(** Modelled from the spec: steps 3 to 5 of the insertion ([list.cpp] is
    missing), on the chain from the starting entry:
    the entries wholly before the new range and not adjacent to it are
    kept in front; every entry that overlaps the new range or is
    immediately adjacent to it is merged into it (the bounds are
    extended, its size is added to the count of what was already
    present, it is unlinked); the entries after it stay behind.  The
    result is the entries in front, the merged range, the count of what
    was already present and the entries behind. *)
Fixpoint merge (lo hi already : Z) (l : list Range)
  : list Range * Range * Z * list Range :=
  match l with
  | [] => ([], {| head := lo; tail := hi |}, already, [])
  | r :: rest =>
      if 1 <? seqoff (tail r) lo then
        let '(front, m, a, behind) := merge lo hi already rest in
        (r :: front, m, a, behind)
      else if 1 <? seqoff hi (head r) then
        ([], {| head := lo; tail := hi |}, already, r :: rest)
      else
        merge (seqmin lo (head r)) (seqmax hi (tail r))
              (already + seqlen (head r) (tail r)) rest
  end.

(** Modelled from the spec: steps 1 to 5 of [insert], before the
    capacity is looked at: the number of newly added sequence numbers
    and the list with the range recorded; [list.cpp] is missing. *)
Definition coalesce (s : t) (seq_lo seq_hi : Z) : Z * t :=
  match entries s with
  | [] =>
      let n := seqlen seq_lo seq_hi in
      (n, {| capacity := capacity s;
             entries := [ {| head := seq_lo; tail := seq_hi |} ];
             length := n;
             last_insert := Some O |})
  | _ :: _ =>
      let '(skipped, from) := scan_start s seq_lo in
      let '(front, m, already, behind) := merge seq_lo seq_hi 0 from in
      let added := seqlen (head m) (tail m) - already in
      (added,
       {| capacity := capacity s;
          entries := skipped ++ front ++ m :: behind;
          length := length s + added;
          last_insert := Some (List.length skipped + List.length front)%nat |})
  end.

(** Modelled from the spec: [insert(seq_lo, seq_hi)] records the closed
    range and returns the number of newly added sequence numbers; if
    inserting would push the stored-entry count above [CAPACITY] it
    returns 0 and does not mutate state.  The stored-entry count is the
    number of stored sequence numbers: the full list of the spec's
    scenario H holds 256 consecutive singletons, which coalesce into one
    range; [list.cpp] is missing. *)
Definition insert (s : t) (seq_lo seq_hi : Z) : Z * t :=
  let '(added, s') := coalesce s seq_lo seq_hi in
  if capacity s <? length s' then (0, s) else (added, s').

(** *** Runs of operations *)




(** [popLostSeq] repeated until it returns [-1]: the values obtained, or
    [None] when the fuel does not suffice. *)
Fixpoint pop_all (fuel : nat) (s : t) : option (list Z) :=
  match fuel with
  | O => None
  | S k =>
      let '(v, s') := popLostSeq s in
      if v =? -1 then Some []
      else match pop_all k s' with
           | Some vs => Some (v :: vs)
           | None => None
           end
  end.

End SndLossList.

(** ** The vocabulary of the loss-list properties *)

Module LossListProps.

Import SeqNo SndLossList.

(** The sequence number at offset [k] from [b], and the offset of [x]
    from a base [b].  The modular order is an order only among sequence
    numbers less than [2^30] apart: the offsets from a common base that
    are not negative form such a window, and inside it the order of the
    sequence numbers is the order of their offsets. *)
Definition at_offset (b k : Z) : Z := (b + k) mod 2 ^ 31.
Definition coord (b x : Z) : Z := seqoff b x.

(** [x] is one of the sequence numbers of the range [r]. *)
Definition in_range (r : Range) (x : Z) : bool :=
  (0 <=? seqoff (head r) x) && (0 <=? seqoff x (tail r)).

(** [x] is recorded in the chain [l]. *)
Definition covers (l : list Range) (x : Z) : bool :=
  existsb (fun r => in_range r x) l.

(** The sum over the entries of [tail - head + 1]. *)
Fixpoint sum_sizes (l : list Range) : Z :=
  match l with
  | [] => 0
  | r :: rest => seqlen (head r) (tail r) + sum_sizes rest
  end.

(** The chain [l], read as offsets from [b], starts at [low] or later,
    each entry has [head <= tail], and each entry ends at least two
    before the next one starts (disjoint and not adjacent). *)
Fixpoint csorted (b low : Z) (l : list Range) : Prop :=
  match l with
  | [] => True
  | r :: rest =>
      seqno (head r) /\ seqno (tail r) /\
      low <= coord b (head r) /\
      coord b (head r) <= coord b (tail r) /\
      csorted b (coord b (tail r) + 2) rest
  end.

(** All ends of the entries of [l] lie in the window that starts at
    [b]. *)
Definition in_window (b : Z) (l : list Range) : Prop :=
  Forall (fun r => 0 <= coord b (head r) /\ 0 <= coord b (tail r)) l.

(** The invariant of the list: the entries are ascending, disjoint and
    not adjacent inside some window, and [length] is the sum of their
    sizes. *)
Definition WF (s : t) : Prop :=
  (exists b, csorted b 0 (entries s)) /\ length s = sum_sizes (entries s).

(** What an insertion may be given: two sequence numbers with
    [seq_lo <= seq_hi] in modular order that share a window with the
    entries of the list. *)
Definition valid_insert (s : t) (seq_lo seq_hi : Z) : Prop :=
  seqno seq_lo /\ seqno seq_hi /\ 0 <= seqoff seq_lo seq_hi /\
  exists b, in_window b (entries s) /\
            0 <= coord b seq_lo /\ 0 <= coord b seq_hi.



Definition ind (c : bool) : Z := if c then 1 else 0.

(** The number of [n] consecutive sequence numbers from [x] on that
    satisfy [p]. *)
Fixpoint count_from (p : Z -> bool) (x : Z) (n : nat) : Z :=
  match n with
  | O => 0
  | S n' => ind (p x) + count_from p (incseq x) n'
  end.

(** The number of sequence numbers of the closed range from [seq_lo] to
    [seq_hi] that are not recorded in [l]. *)
Definition count_new (l : list Range) (seq_lo seq_hi : Z) : Z :=
  count_from (fun x => negb (covers l x)) seq_lo
             (Z.to_nat (seqlen seq_lo seq_hi)).

(** The number of integers [k] with [a <= k < a + n] that satisfy
    [f]. *)
Fixpoint countZ (f : Z -> bool) (a : Z) (n : nat) : Z :=
  match n with
  | O => 0
  | S n' => ind (f a) + countZ f (a + 1) n'
  end.

(** The offset bound handed on by a chain: two past its last tail. *)
Fixpoint upper (b low : Z) (l : list Range) : Z :=
  match l with
  | [] => low
  | r :: rest => upper b (coord b (tail r) + 2) rest
  end.



End LossListProps.

(** ** [srtcore/common.cpp]: the other name tables *)

Module CommonNames.

Import Common.

(** The table [vals] of [TransmissionEventStr]. *)
Definition vals : list string :=
  [ "init"; "ack"; "ackack"; "lossreport"; "checktimer"; "send";
    "receive"; "custom" ]%string.

Definition TransmissionEventStr (ev : Z) : access :=
  let vals_size := Size vals in
  if vals_size <=? size_t ev then Value "UNKNOWN"
  else index vals ev.

Definition srt_rejectreason_msg : list string :=
  [ "Unknown or erroneous";
    "Error in system calls";
    "Peer rejected connection";
    "Resource allocation failure";
    "Rogue peer or incorrect parameters";
    "Listener's backlog exceeded";
    "Internal Program Error";
    "Socket is being closed";
    "Peer version too old";
    "Rendezvous-mode cookie collision";
    "Incorrect passphrase";
    "Password required or unexpected";
    "MessageAPI/StreamAPI collision";
    "Congestion controller type collision";
    "Packet Filter type collision";
    "Group settings collision" ]%string.

Definition srt_rejectreason_str (rid : Z) : access :=
  let id := rid in
  let ra_size := Size srt_rejectreason_msg in
  if ra_size <=? size_t id then index srt_rejectreason_msg 0
  else index srt_rejectreason_msg id.

End CommonNames.

(** ** [srtcore/common.cpp]: the error code of [CUDTException] *)

Module UDTException.

(** [int]: two's complement, 32 bits; the model wraps. *)
Definition int_wrap (z : Z) : Z := (z + 2 ^ 31) mod 2 ^ 32 - 2 ^ 31.

(** The fields [m_iMajor], [m_iMinor] and [m_iErrno]; the enumerators of
    [CodeMajor] and [CodeMinor] are kept as their [int] values. *)
Record CUDTException : Type :=
  { m_iMajor : Z; m_iMinor : Z; m_iErrno : Z }.

(** [UDT_XCODE(mj, mn)], that is [(int(mj)*1000)+int(mn)]. *)
Definition UDT_XCODE (mj mn : Z) : Z := int_wrap (int_wrap (mj * 1000) + mn).

Definition getErrorCode (e : CUDTException) : Z :=
  UDT_XCODE (m_iMajor e) (m_iMinor e).

Definition getErrno (e : CUDTException) : Z := m_iErrno e.

Section Construct.

(** [NET_ERROR], the error number of the last system call at the time of
    the construction: it is read from the environment. *)
Variable NET_ERROR : Z.

(** The constructor [CUDTException(major, minor, err)]. *)
Definition make (major minor err : Z) : CUDTException :=
  {| m_iMajor := major; m_iMinor := minor;
     m_iErrno := if err =? -1 then NET_ERROR else err |}.

End Construct.

End UDTException.

(** ** [srtcore/sync.cpp]: mutexes, scoped locks and the event *)

(** The mutex calls join the environment of the condition variable: the
    world records every [pthread_mutex_lock] and [pthread_mutex_unlock]
    in order and holds the results they will give. *)
Module Event.

Inductive mutex_call : Type :=
| Lock (m : Z)
| Unlock (m : Z).

Record World : Type :=
  { cond_world : Cond.World;
    lock_rc : nat -> Z;                (* results of pthread_mutex_lock *)
    unlock_rc : nat -> Z;              (* results of pthread_mutex_unlock *)
    mutex_calls : list mutex_call      (* latest first *) }.

Definition M (A : Type) : Type := World -> A * World.
Definition ret {A} (a : A) : M A := fun w => (a, w).
Definition bind {A B} (m : M A) (k : A -> M B) : M B :=
  fun w => let (a, w') := m w in k a w'.

Declare Scope event_scope.
Delimit Scope event_scope with event.
Notation "x <- m ;; k" := (bind m (fun x => k))
  (at level 61, m at next level, right associativity) : event_scope.
Local Open Scope event_scope.

(** A computation on the condition variable, run in the larger world. *)
Definition lift {A} (c : Cond.M A) : M A := fun w =>
  let (a, cw) := c (cond_world w) in
  (a, {| cond_world := cw; lock_rc := lock_rc w; unlock_rc := unlock_rc w;
         mutex_calls := mutex_calls w |}).

(** [Mutex::lock] *)
Definition Mutex_lock (m : Z) : M Z := fun w =>
  (lock_rc w (List.length (mutex_calls w)),
   {| cond_world := cond_world w; lock_rc := lock_rc w;
      unlock_rc := unlock_rc w; mutex_calls := Lock m :: mutex_calls w |}).

(** [Mutex::unlock] *)
Definition Mutex_unlock (m : Z) : M Z := fun w =>
  (unlock_rc w (List.length (mutex_calls w)),
   {| cond_world := cond_world w; lock_rc := lock_rc w;
      unlock_rc := unlock_rc w; mutex_calls := Unlock m :: mutex_calls w |}).

(** [ScopedLock]: the constructor and the destructor; its only field is
    the mutex. *)
Definition ScopedLock_ctor (m : Z) : M Z := _ <- Mutex_lock m ;; ret m.
Definition ScopedLock_dtor (m_mutex : Z) : M unit :=
  _ <- Mutex_unlock m_mutex ;; ret tt.

(** [UniqueLock]: the mutex and [m_iLocked], the result of locking it. *)
Record UniqueLock : Type := { m_Mutex : Z; m_iLocked : Z }.

Definition UniqueLock_ctor (m : Z) : M UniqueLock :=
  rc <- Mutex_lock m ;; ret {| m_Mutex := m; m_iLocked := rc |}.

Definition UniqueLock_unlock (l : UniqueLock) : M UniqueLock :=
  if m_iLocked l =? 0 then
    _ <- Mutex_unlock (m_Mutex l) ;;
    ret {| m_Mutex := m_Mutex l; m_iLocked := -1 |}
  else ret l.

Definition UniqueLock_dtor (l : UniqueLock) : M unit :=
  _ <- UniqueLock_unlock l ;; ret tt.

Definition UniqueLock_mutex (l : UniqueLock) : Z := m_Mutex l.

(** [n] calls of [unlock()] on the same lock, one after the other. *)
Fixpoint unlock_times (n : nat) (l : UniqueLock) : M UniqueLock :=
  match n with
  | O => ret l
  | S k => l' <- UniqueLock_unlock l ;; unlock_times k l'
  end.

Section Platform.

Variable s_cpu_frequency : Z.
Variable ETIMEDOUT : Z.

(** [CEvent::lock_wait_until], [m_lock] being the mutex of the event:
    the lock lives for the scope of the call. *)
Definition lock_wait_until (m_lock : Z) (tp : Sync.time_point) : M bool :=
  lock <- UniqueLock_ctor m_lock ;;
  r <- lift (Cond.wait_until s_cpu_frequency ETIMEDOUT (UniqueLock_mutex lock) tp) ;;
  _ <- UniqueLock_dtor lock ;;
  ret r.

(** [CEvent::lock_wait_for] *)
Definition lock_wait_for (m_lock : Z) (rel_time : Sync.duration) : M bool :=
  lock <- UniqueLock_ctor m_lock ;;
  r <- lift (Cond.wait_for s_cpu_frequency ETIMEDOUT (UniqueLock_mutex lock)
                           rel_time) ;;
  _ <- UniqueLock_dtor lock ;;
  ret r.

(** [CEvent::wait_for] on a lock the caller holds. *)
Definition wait_for (lock : UniqueLock) (rel_time : Sync.duration) : M bool :=
  lift (Cond.wait_for s_cpu_frequency ETIMEDOUT (UniqueLock_mutex lock) rel_time).

End Platform.

End Event.

(** ** [srtcore/common.cpp]: [CIPAddress] *)

(** A socket address is the member of the union that its family makes
    active: [sin] for [AF_INET], [sin6] otherwise.  Reading or writing the
    other member would depend on the layout of the union; the functions
    return [None] there.  Bytes and words are integers, kept in range by
    the conversions the code performs. *)
Module IPAddress.

Record sockaddr_in : Type := { sin_port : Z; s_addr : Z }.

Record sockaddr_in6 : Type :=
  { sin6_port : Z; sin6_flowinfo : Z; s6_addr : list Z; sin6_scope_id : Z }.

Inductive sockaddr_any : Type :=
| Sin (a : sockaddr_in)
| Sin6 (a : sockaddr_in6).

(** An array element assigned at a constant index; the arrays have 4 and
    16 elements and every index the code uses is inside them. *)
Definition set_nth (l : list Z) (i : nat) (v : Z) : list Z :=
  if (i <? List.length l)%nat then firstn i l ++ v :: skipn (S i) l else l.

(** [int] arithmetic (the bytes are promoted to [int]) and the
    conversions to [uint32_t] and to [unsigned char]. *)
Definition int_shl (x n : Z) : Z := UDTException.int_wrap (Z.shiftl x n).
Definition int_add (a b : Z) : Z := UDTException.int_wrap (a + b).
Definition to_uint32 (z : Z) : Z := z mod 2 ^ 32.
Definition to_uchar (z : Z) : Z := z mod 2 ^ 8.

(** [(b3 << 24) + (b2 << 16) + (b1 << 8) + b0], stored in a
    [uint32_t]. *)
Definition word_of (b3 b2 b1 b0 : Z) : Z :=
  to_uint32
    (int_add (int_add (int_add (int_shl b3 24) (int_shl b2 16)) (int_shl b1 8))
             b0).

(** [CIPAddress::ntop]; [ip] is the array that is written into. *)
Definition ntop (addr : sockaddr_any) (ip : list Z) : list Z :=
  match addr with
  | Sin a => set_nth ip 0 (s_addr a)
  | Sin6 a =>
      let b i := nth i (s6_addr a) 0 in
      let ip := set_nth ip 3 (word_of (b 15%nat) (b 14%nat) (b 13%nat) (b 12%nat)) in
      let ip := set_nth ip 2 (word_of (b 11%nat) (b 10%nat) (b 9%nat) (b 8%nat)) in
      let ip := set_nth ip 1 (word_of (b 7%nat) (b 6%nat) (b 5%nat) (b 4%nat)) in
      set_nth ip 0 (word_of (b 3%nat) (b 2%nat) (b 1%nat) (b 0%nat))
  end.

(** One round of the loop of [pton]: the four bytes of [ip[i]]. *)
Definition pton_step (ip : list Z) (bytes : list Z) (i : nat) : list Z :=
  let x := nth i ip 0 in
  let bytes := set_nth bytes (i * 4) (to_uchar (Z.land x 255)) in
  let bytes :=
    set_nth bytes (i * 4 + 1) (to_uchar (Z.shiftr (Z.land x 65280) 8)) in
  let bytes :=
    set_nth bytes (i * 4 + 2) (to_uchar (Z.shiftr (Z.land x 16711680) 16)) in
  set_nth bytes (i * 4 + 3) (to_uchar (Z.shiftr (Z.land x 4278190080) 24)).

(** The comparison loop of [ipcmp] from byte [i] on, [n] bytes being
    left: [false] at the first difference. *)
Fixpoint ipcmp_bytes (b1 b2 : list Z) (i n : nat) : bool :=
  match n with
  | O => true
  | S k =>
      if negb (nth i b1 0 =? nth i b2 0) then false
      else ipcmp_bytes b1 b2 (S i) k
  end.

Section Families.

(** The address family constant [AF_INET] of the platform. *)
Variable AF_INET : Z.

(** [CIPAddress::pton] *)
Definition pton (w_addr : sockaddr_any) (ip : list Z) (ver : Z)
  : option sockaddr_any :=
  if AF_INET =? ver then
    match w_addr with
    | Sin a => Some (Sin {| sin_port := sin_port a; s_addr := nth 0 ip 0 |})
    | Sin6 _ => None
    end
  else
    match w_addr with
    | Sin6 a =>
        Some (Sin6 {| sin6_port := sin6_port a;
                      sin6_flowinfo := sin6_flowinfo a;
                      s6_addr := fold_left (pton_step ip) (seq 0 4) (s6_addr a);
                      sin6_scope_id := sin6_scope_id a |})
    | Sin _ => None
    end.

(** [CIPAddress::ipcmp] *)
Definition ipcmp (addr1 addr2 : sockaddr_any) (ver : Z) : option bool :=
  if AF_INET =? ver then
    match addr1, addr2 with
    | Sin a1, Sin a2 =>
        Some (if (sin_port a1 =? sin_port a2) && (s_addr a1 =? s_addr a2)
              then true else false)
    | _, _ => None
    end
  else
    match addr1, addr2 with
    | Sin6 a1, Sin6 a2 =>
        Some (if sin6_port a1 =? sin6_port a2
              then ipcmp_bytes (s6_addr a1) (s6_addr a2) 0 16
              else false)
    | _, _ => None
    end.

End Families.

(** An IPv6 address as the code expects it: sixteen bytes. *)
Definition bytes16 (l : list Z) : Prop :=
  List.length l = 16%nat /\ Forall (fun b => 0 <= b < 256) l.

(** The array [ip]: four [uint32_t]. *)
Definition words4 (l : list Z) : Prop :=
  List.length l = 4%nat /\ Forall (fun x => 0 <= x < 2 ^ 32) l.

End IPAddress.

(** ** [srtcore/common.cpp]: the message of [CUDTException] *)

Module UDTErrorString.

Import UDTException.
Local Open Scope string_scope.

(** A [switch] over distinct [case] labels: the first label that equals
    the value selects, otherwise the [default]. *)
Fixpoint switch {A : Type} (x : Z) (cases : list (Z * A)) (default : A) : A :=
  match cases with
  | [] => default
  | (label, a) :: rest => if (x =? label)%Z then a else switch x rest default
  end.

Section Enumerators.

(** The enumerators of [CodeMajor] and [CodeMinor] are declared in a
    header that is not among the sources; they are parameters, as is
    whether [SRT_ENABLE_ECN] is defined, and [SysStrError], which asks the
    system for the text of an error number. *)
Variables MJ_SUCCESS MJ_SETUP MJ_CONNECTION MJ_SYSTEMRES MJ_FILESYSTEM
          MJ_NOTSUP MJ_AGAIN MJ_PEERERROR : Z.
Variables MN_TIMEOUT MN_REJECTED MN_NORES MN_SECURITY : Z.
Variables MN_CONNLOST MN_NOCONN : Z.
Variables MN_THREAD MN_MEMORY : Z.
Variables MN_SEEKGFAIL MN_READFAIL MN_SEEKPFAIL MN_WRITEFAIL : Z.
Variables MN_ISBOUND MN_ISCONNECTED MN_INVAL MN_SIDINVAL MN_ISUNBOUND
          MN_NOLISTEN MN_ISRENDEZVOUS MN_ISRENDUNBOUND MN_INVALMSGAPI
          MN_INVALBUFFERAPI MN_BUSY MN_XSIZE MN_EIDINVAL MN_EEMPTY : Z.
Variables MN_WRAVAIL MN_RDAVAIL MN_XMTIMEOUT MN_CONGESTION : Z.
Variable SRT_ENABLE_ECN : bool.
Variable SysStrError : Z -> string.

(** [CUDTException::getErrorString]: [m_strMsg] is the mutable member the
    message is built in, with the value the last call left; the result is
    its new value, which is also what is returned.  A minor code without
    a [case] appends nothing. *)
Definition getErrorString (e : CUDTException) (m_strMsg : string) : string :=
  let minor := m_iMinor e in
  let m_strMsg :=
    switch (m_iMajor e)
      [ (MJ_SUCCESS, "Success");
        (MJ_SETUP,
         "Connection setup failure" ++
         switch minor
           [ (MN_TIMEOUT, ": connection time out");
             (MN_REJECTED, ": connection rejected");
             (MN_NORES, ": unable to create/configure SRT socket");
             (MN_SECURITY, ": abort for security reasons") ] "");
        (MJ_CONNECTION,
         switch minor
           [ (MN_CONNLOST, "Connection was broken");
             (MN_NOCONN, "Connection does not exist") ] m_strMsg);
        (MJ_SYSTEMRES,
         "System resource failure" ++
         switch minor
           [ (MN_THREAD, ": unable to create new threads");
             (MN_MEMORY, ": unable to allocate buffers") ] "");
        (MJ_FILESYSTEM,
         "File system failure" ++
         switch minor
           [ (MN_SEEKGFAIL, ": cannot seek read position");
             (MN_READFAIL, ": failure in read");
             (MN_SEEKPFAIL, ": cannot seek write position");
             (MN_WRITEFAIL, ": failure in write") ] "");
        (MJ_NOTSUP,
         "Operation not supported" ++
         switch minor
           [ (MN_ISBOUND, ": Cannot do this operation on a BOUND socket");
             (MN_ISCONNECTED,
              ": Cannot do this operation on a CONNECTED socket");
             (MN_INVAL, ": Bad parameters");
             (MN_SIDINVAL, ": Invalid socket ID");
             (MN_ISUNBOUND,
              ": Cannot do this operation on an UNBOUND socket");
             (MN_NOLISTEN, ": Socket is not in listening state");
             (MN_ISRENDEZVOUS,
              ": Listen/accept is not supported in rendezous connection setup");
             (MN_ISRENDUNBOUND,
              ": Cannot call connect on UNBOUND socket in rendezvous connection setup");
             (MN_INVALMSGAPI,
              ": Incorrect use of Message API (sendmsg/recvmsg).");
             (MN_INVALBUFFERAPI,
              ": Incorrect use of Buffer API (send/recv) or File API (sendfile/recvfile).");
             (MN_BUSY,
              ": Another socket is already listening on the same port");
             (MN_XSIZE,
              ": Message is too large to send (it must be less than the SRT send buffer size)");
             (MN_EIDINVAL, ": Invalid epoll ID");
             (MN_EEMPTY,
              ": All sockets removed from epoll, waiting would deadlock") ] "");
        (MJ_AGAIN,
         "Non-blocking call failure" ++
         switch minor
           ([ (MN_WRAVAIL, ": no buffer available for sending");
              (MN_RDAVAIL, ": no data available for reading");
              (MN_XMTIMEOUT, ": transmission timed out") ]
            ++ (if SRT_ENABLE_ECN
                then [ (MN_CONGESTION, ": early congestion notification") ]
                else []))%list "");
        (MJ_PEERERROR, "The peer side has signalled an error") ]
      "Unknown error" in
  if negb (MJ_SUCCESS =? m_iMajor e)%Z && (0 <? m_iErrno e)%Z
  then m_strMsg ++ (": " ++ SysStrError (m_iErrno e))
  else m_strMsg.

(** What the error number adds to the message. *)
Definition errno_suffix (e : CUDTException) : string :=
  if (0 <? m_iErrno e)%Z then ": " ++ SysStrError (m_iErrno e) else "".

End Enumerators.

End UDTErrorString.

(** ** [srtcore/common.cpp]: [ShowIP6] *)

Module IPShow.

Import IPAddress.
Local Open Scope string_scope.

(** A hexadecimal digit in upper case ([ios::uppercase] is set). *)
Definition hex_digit (d : Z) : ascii :=
  if (d <? 10)%Z then ascii_of_nat (48 + Z.to_nat d)
  else ascii_of_nat (55 + Z.to_nat d).

(** The hexadecimal digits of a non-negative [int], most significant
    first; there are at most 8. *)
Fixpoint hex_digits (fuel : nat) (n : Z) (acc : string) : string :=
  match fuel with
  | O => acc
  | S k =>
      let acc' := String (hex_digit (n mod 16)) acc in
      if (n <? 16)%Z then acc' else hex_digits k (n / 16) acc'
  end.

(** [os << hex << v] *)
Definition hex (v : Z) : string := hex_digits 8 v "".

(** The loop of [ShowIP6] from byte [i] on, [n] bytes being left; [os] is
    what the stream holds and [sep] the flag of the same name. *)
Fixpoint ShowIP6_loop (bytes : list Z) (i n : nat) (os : string) (sep : bool)
  : string :=
  match n with
  | O => os
  | S k =>
      let v := nth i bytes 0%Z in
      if (v =? 0)%Z then ShowIP6_loop bytes (S i) k os sep
      else
        let os := if sep then os ++ ":" else os in
        let os := os ++ hex v in
        ShowIP6_loop bytes (S i) k os true
  end.

Definition ShowIP6 (sin : sockaddr_in6) : string :=
  ShowIP6_loop (s6_addr sin) 0 16 "" false.

End IPShow.

(** ** [srtcore/sync.cpp]: the timer *)

(** [CTimer::sleep_until] in the build without busy waiting, run by one
    thread while no other thread calls [interrupt()]: [m_tsSchedTime] is
    then the deadline that was stored.  The loop runs as long as the
    clock reads before the deadline; the fuel bounds the number of rounds
    and [None] says that it did not suffice. *)
Module Timer.

Import Event.
Local Open Scope event_scope.

Section Platform.

Variable s_cpu_frequency : Z.
Variable ETIMEDOUT : Z.

Fixpoint sleep_loop (fuel : nat) (m_lock : Z) (m_tsSchedTime cur_tp : Z)
  : M (option bool) :=
  match fuel with
  | O => ret None
  | S k =>
      if cur_tp <? m_tsSchedTime then
        _ <- lock_wait_until s_cpu_frequency ETIMEDOUT m_lock m_tsSchedTime ;;
        cur_tp <- lift Cond.now ;;
        sleep_loop k m_lock m_tsSchedTime cur_tp
      else ret (Some (Sync.tp_ge cur_tp m_tsSchedTime))
  end.

Definition sleep_until (fuel : nat) (m_lock : Z) (tp : Sync.time_point)
  : M (option bool) :=
  _ <- Mutex_lock m_lock ;;
  let m_tsSchedTime := tp in
  _ <- Mutex_unlock m_lock ;;
  cur_tp <- lift Cond.now ;;
  sleep_loop fuel m_lock m_tsSchedTime cur_tp.

End Platform.

(** The value that the [j]-th reading of the tick counter from now on
    will give. *)
Definition reading (w : World) (j : nat) : Z :=
  UInt64.wrap (Cond.tsc (cond_world w) (Cond.tsc_reads (cond_world w) + j)).

End Timer.

(* ================================================================== *)
(** * Part II.  Properties                                             *)
(* ================================================================== *)

(** ** Conversions between durations and time units *)

Section TimeUnits.

Import Sync.

Lemma Int64_wrap_in_range (z : Z) : Int64.in_range z -> Int64.wrap z = z.
Proof.
  unfold Int64.in_range, Int64.min_signed, Int64.max_signed, Int64.wrap.
  intros H. rewrite Z.mod_small by lia. lia.
Qed.

Variable f : Z.
Hypothesis f_nonzero : f <> 0.

Lemma count_microseconds_exact (n : Z) :
  Int64.in_range n -> Int64.in_range (n * f) ->
  count_microseconds f (microseconds_from f n) = n.
Proof.
  intros Hn Hnf. unfold count_microseconds, microseconds_from, Int64.mul, Int64.div.
  rewrite (Int64_wrap_in_range (n * f)) by exact Hnf.
  rewrite Z.quot_mul by exact f_nonzero.
  now apply Int64_wrap_in_range.
Qed.

Lemma count_scaled_exact (k n : Z) :
  k <> 0 -> Int64.in_range n ->
  Int64.in_range (k * n) -> Int64.in_range (k * n * f) ->
  Int64.div (Int64.div (Int64.mul (Int64.mul k n) f) f) k = n.
Proof.
  intros Hk Hn Hkn Hknf. unfold Int64.mul, Int64.div.
  rewrite (Int64_wrap_in_range (k * n)) by exact Hkn.
  rewrite (Int64_wrap_in_range (k * n * f)) by exact Hknf.
  rewrite Z.quot_mul by exact f_nonzero.
  rewrite (Int64_wrap_in_range (k * n)) by exact Hkn.
  rewrite (Z.mul_comm k n), Z.quot_mul by exact Hk.
  now apply Int64_wrap_in_range.
Qed.

End TimeUnits.

(** C7.  With a non-zero [s_cpu_frequency] and no 64-bit overflow in the
    products, converting [n] microseconds, milliseconds or seconds to a
    duration and counting the same unit back returns [n] exactly (so in
    particular within one tick of rounding error). *)
Theorem time_unit_roundtrip (f n : Z) :
  f <> 0 -> Int64.in_range n ->
  (Int64.in_range (n * f) ->
   Sync.count_microseconds f (Sync.microseconds_from f n) = n) /\
  (Int64.in_range (1000 * n) -> Int64.in_range (1000 * n * f) ->
   Sync.count_milliseconds f (Sync.milliseconds_from f n) = n) /\
  (Int64.in_range (1000000 * n) -> Int64.in_range (1000000 * n * f) ->
   Sync.count_seconds f (Sync.seconds_from f n) = n).
Proof.
  intros Hf Hn. repeat split; intros.
  - now apply count_microseconds_exact.
  - unfold Sync.count_milliseconds, Sync.milliseconds_from.
    apply count_scaled_exact; auto; lia.
  - unfold Sync.count_seconds, Sync.seconds_from.
    apply count_scaled_exact; auto; lia.
Qed.

Lemma time_unit_roundtrip_witness :
  Sync.count_microseconds 2400 (Sync.microseconds_from 2400 (-7)) = -7 /\
  Sync.count_milliseconds 2400 (Sync.milliseconds_from 2400 (-7)) = -7 /\
  Sync.count_seconds 2400 (Sync.seconds_from 2400 (-7)) = -7.
Proof.
  assert (R : forall z, - 2 ^ 40 <= z <= 2 ^ 40 -> Int64.in_range z).
  { unfold Int64.in_range, Int64.min_signed, Int64.max_signed. lia. }
  destruct (time_unit_roundtrip 2400 (-7)) as (A & B & C);
    [ lia | apply R; lia | ].
  split; [ apply A | split; [ apply B | apply C ] ]; apply R; lia.
Defined.

(** ** Message type names *)

Section MessageTypeNames.

Import Common.

Variable UMSG_EXT : Z.

(** Away from the boundary the guard does its work: every control type
    other than [UMSG_EXT] and 9 either yields ["unknown"] or indexes the
    nine-element table inside its bounds. *)
Lemma MessageTypeStr_guarded (mt extt : Z) :
  - 2 ^ 31 <= mt < 2 ^ 31 -> mt <> UMSG_EXT -> mt <> 9 ->
  MessageTypeStr UMSG_EXT mt extt = Value "unknown" \/
  (0 <= mt < Size udt_types /\
   exists s, nth_error udt_types (Z.to_nat mt) = Some s /\
             MessageTypeStr UMSG_EXT mt extt = Value s).
Proof.
  intros Hr Hne H9. unfold MessageTypeStr.
  destruct (Z.eqb_spec mt UMSG_EXT) as [|_]; [contradiction|].
  change (Size udt_types) with 9.
  unfold size_t, UInt64.wrap, UInt64.modulus.
  destruct (Z_lt_le_dec mt 0) as [Hneg|Hpos].
  - left.
    replace (mt mod 2 ^ 64) with (mt + 2 ^ 64)
      by (apply Z.mod_unique with (q := -1); lia).
    destruct (Z.ltb_spec 9 (mt + 2 ^ 64)); [reflexivity | lia].
  - rewrite Z.mod_small by lia.
    destruct (Z.ltb_spec 9 mt) as [|Hle]; [now left | right].
    split; [lia|].
    assert (Hc : mt = 0 \/ mt = 1 \/ mt = 2 \/ mt = 3 \/ mt = 4 \/
                 mt = 5 \/ mt = 6 \/ mt = 7 \/ mt = 8) by lia.
    repeat (destruct Hc as [-> | Hc]; [eexists; split; reflexivity|]).
    subst mt. eexists; split; reflexivity.
Qed.

End MessageTypeNames.

(** C10.  At [mt = 9] (which is not [UMSG_EXT]) the guard
    [size_t(mt) > Size(udt_types)] does not fire, the function does not
    return ["unknown"], and it reads [udt_types[9]], one past the nine
    entries of the table. *)
Theorem MessageTypeStr_reads_past_table (UMSG_EXT extt : Z) :
  UMSG_EXT <> 9 ->
  Common.MessageTypeStr UMSG_EXT 9 extt = Common.OutOfBounds 9 9 /\
  Common.Size Common.udt_types = 9.
Proof.
  intros H. unfold Common.MessageTypeStr.
  destruct (Z.eqb_spec 9 UMSG_EXT) as [E|_]; [congruence|].
  split; reflexivity.
Qed.

Lemma MessageTypeStr_reads_past_table_witness :
  Common.MessageTypeStr 32767 9 0 = Common.OutOfBounds 9 9 /\
  Common.Size Common.udt_types = 9.
Proof.
  apply (MessageTypeStr_reads_past_table 32767 0). discriminate.
Defined.

(** ** Timed waits on the condition variable *)

Section ConditionWaits.

Import Cond.

Variable s_cpu_frequency ETIMEDOUT : Z.

(** Reading the tick counter performs no wait. *)
Lemma now_timedwaits (w : World) :
  timedwaits (snd (now w)) = timedwaits w.
Proof. reflexivity. Qed.

(** A timed wait is logged by [wait_for], once. *)
Lemma wait_for_timedwaits (lock : Z) (rel : Sync.duration) (w : World) :
  List.length (timedwaits (snd (wait_for s_cpu_frequency ETIMEDOUT lock rel w)))
  = S (List.length (timedwaits w)).
Proof. reflexivity. Qed.

End ConditionWaits.

(** C8.  [wait_until] reads the clock once.  If the deadline is not after
    that reading it returns [false] and no timed wait is performed: the
    world is the one left by the clock reading, with the log of timed waits
    as it was.  Otherwise it is [wait_for] on the difference between the
    deadline and the reading. *)
Theorem wait_until_past_or_wait_for
  (f ETIMEDOUT lock : Z) (tp : Sync.time_point) (w : Cond.World) :
  let (t, w1) := Cond.now w in
  (tp <= t ->
     Cond.wait_until f ETIMEDOUT lock tp w = (false, w1) /\
     Cond.timedwaits (snd (Cond.wait_until f ETIMEDOUT lock tp w))
       = Cond.timedwaits w) /\
  (t < tp ->
     Cond.wait_until f ETIMEDOUT lock tp w
       = Cond.wait_for f ETIMEDOUT lock (Sync.tp_sub tp t) w1).
Proof.
  unfold Cond.wait_until, Cond.bind.
  destruct (Cond.now w) as [t w1] eqn:E.
  assert (Hlog : Cond.timedwaits w1 = Cond.timedwaits w).
  { pose proof (now_timedwaits w) as H. rewrite E in H. exact H. }
  unfold Sync.tp_ge. split; intros H.
  - destruct (Z.leb_spec tp t); [|lia]. now split.
  - destruct (Z.leb_spec tp t); [lia|]. reflexivity.
Qed.

(** ** The rendering of time points *)

Section Strings.

Local Open Scope string_scope.

Lemma string_app_assoc (a b c : string) : (a ++ b) ++ c = a ++ (b ++ c).
Proof. induction a as [|x a IH]; simpl; [reflexivity | now rewrite IH]. Qed.

Lemma string_app_nil_r (a : string) : a ++ "" = a.
Proof. induction a as [|x a IH]; simpl; [reflexivity | now rewrite IH]. Qed.

Lemma string_length_app (a b : string) :
  String.length (a ++ b) = (String.length a + String.length b)%nat.
Proof. induction a as [|x a IH]; simpl; [reflexivity | now rewrite IH]. Qed.

Lemma replicate_snoc (n : nat) (c : ascii) :
  OStream.replicate n c ++ String c "" = OStream.replicate (S n) c.
Proof. induction n as [|n IH]; simpl; [reflexivity | now rewrite IH]. Qed.

End Strings.

Section Decimal.

Import OStream SyncSpec.
Local Open Scope string_scope.

Lemma fixed_length (k : nat) (n : Z) : String.length (fixed k n) = k.
Proof.
  revert n; induction k as [|k IH]; intros n; simpl; [reflexivity|].
  rewrite string_length_app, IH. simpl. lia.
Qed.

Lemma fixed_zero (k : nat) : fixed k 0 = replicate k "0"%char.
Proof.
  induction k as [|k IH]; [reflexivity|].
  cbn [fixed]. change (0 / 10)%Z with 0%Z. rewrite IH.
  change (String (digit (0 mod 10)) "") with (String "0"%char "").
  apply replicate_snoc.
Qed.

(** The digit loop of the stream produces the numeral of [n]: [j] digits,
    where [j] is the least width that holds [n]; padding it to a wider
    field gives the fixed-width form. *)
Lemma dec_digits_fixed (k : nat) :
  forall (fuel : nat) (n : Z) (acc : string),
    (1 <= k <= fuel)%nat -> (0 <= n < 10 ^ Z.of_nat k)%Z ->
    exists j : nat,
      (1 <= j <= k)%nat /\
      dec_digits fuel n acc = fixed j n ++ acc /\
      fixed k n = replicate (k - j) "0"%char ++ fixed j n /\
      (n < 10 ^ Z.of_nat j)%Z /\
      (j = 1%nat \/ 10 ^ (Z.of_nat j - 1) <= n)%Z.
Proof.
  induction k as [|k IH]; intros fuel n acc Hk Hn; [lia|].
  destruct fuel as [|fuel]; [lia|].
  cbn [dec_digits].
  destruct (Z.ltb_spec n 10) as [Hlt|Hge].
  - exists 1%nat.
    refine (conj _ (conj _ (conj _ (conj _ _)))).
    + lia.
    + reflexivity.
    + cbn [fixed]. rewrite Z.div_small by lia. rewrite fixed_zero.
      replace (S k - 1)%nat with k by lia. reflexivity.
    + simpl; lia.
    + now left.
  - destruct k as [|k]; [simpl in Hn; lia|].
    assert (Hdiv : (0 <= n / 10 < 10 ^ Z.of_nat (S k))%Z).
    { split; [apply Z.div_pos; lia|].
      apply Z.div_lt_upper_bound; [lia|].
      replace (Z.of_nat (S (S k))) with (Z.of_nat (S k) + 1)%Z in Hn by lia.
      rewrite Z.pow_add_r in Hn by lia. lia. }
    destruct (IH fuel (n / 10)%Z (String (digit (n mod 10)) acc))
      as (j & Hj & Hdec & Hfix & Hup & Hlow); [lia | exact Hdiv |].
    pose proof (Z.mod_pos_bound n 10 ltac:(lia)) as Hmod.
    pose proof (Z.div_mod n 10 ltac:(lia)) as Hdm.
    exists (S j).
    refine (conj _ (conj _ (conj _ (conj _ _)))).
    + lia.
    + rewrite Hdec. cbn [fixed]. rewrite string_app_assoc. reflexivity.
    + change (fixed (S (S k)) n)
        with (fixed (S k) (n / 10) ++ String (digit (n mod 10)) "").
      change (fixed (S j) n)
        with (fixed j (n / 10) ++ String (digit (n mod 10)) "").
      rewrite Hfix, string_app_assoc.
      replace (S (S k) - S j)%nat with (S k - j)%nat by lia. reflexivity.
    + replace (Z.of_nat (S j)) with (Z.of_nat j + 1)%Z by lia.
      rewrite Z.pow_add_r by lia. lia.
    + right. replace (Z.of_nat (S j) - 1)%Z with (Z.of_nat j) by lia.
      destruct Hlow as [-> | Hlow]; [simpl; lia|].
      replace (Z.of_nat j) with ((Z.of_nat j - 1) + 1)%Z by lia.
      rewrite Z.pow_add_r by lia. lia.
Qed.

Lemma digits_from_least (fuel : nat) :
  forall (k j : nat) (n : Z),
    (k <= j)%nat -> (j - k < fuel)%nat ->
    (n < 10 ^ Z.of_nat j)%Z ->
    (forall i : nat, (k <= i < j)%nat -> (10 ^ Z.of_nat i <= n)%Z) ->
    digits_from fuel k n = j.
Proof.
  induction fuel as [|fuel IH]; intros k j n Hkj Hf Hup Hlow; [lia|].
  cbn [digits_from].
  destruct (Z.ltb_spec n (10 ^ Z.of_nat k)) as [Hlt|Hge].
  - destruct (Nat.eq_dec k j) as [->|Hne]; [reflexivity|].
    specialize (Hlow k ltac:(lia)). lia.
  - destruct (Nat.eq_dec k j) as [->|Hne]; [lia|].
    apply IH; try lia. intros i Hi. apply Hlow. lia.
Qed.

(** The stream prints a [uint64_t] as its decimal numeral. *)
Lemma dec_numeral (n : Z) : (0 <= n < 2 ^ 64)%Z -> dec n = numeral n.
Proof.
  intros Hn. unfold dec, numeral.
  destruct (dec_digits_fixed 20 20 n "") as (j & Hj & Hdec & _ & Hup & Hlow);
    [lia | simpl; lia |].
  rewrite Hdec, string_app_nil_r.
  rewrite (digits_from_least 20 1 j n); try lia; [reflexivity|].
  intros i Hi. destruct Hlow as [-> | Hlow]; [lia|].
  apply Z.le_trans with (10 ^ (Z.of_nat j - 1))%Z; [|exact Hlow].
  apply Z.pow_le_mono_r; lia.
Qed.

(** A number that fits [k] digits, printed in a field of width [k] with
    fill character [0], appears with exactly [k] digits. *)
Lemma put_uint64_fixed (k : nat) (n : Z) (os : ostringstream) :
  (1 <= k <= 20)%nat -> (0 <= n < 10 ^ Z.of_nat k)%Z ->
  put_uint64 n (setw k (setfill "0"%char os))
  = {| buf := buf os ++ fixed k n; fill := "0"%char; width := 0 |}.
Proof.
  intros Hk Hn. unfold put_uint64, put_string, setw, setfill, dec. cbn [buf fill width].
  destruct (dec_digits_fixed k 20 n "") as (j & Hj & Hdec & Hfix & _ & _);
    [lia | exact Hn |].
  rewrite Hdec, string_app_nil_r, fixed_length, Hfix. reflexivity.
Qed.

End Decimal.

Section TimeFields.

(** Splitting a count of seconds into days, hours, minutes and seconds
    by subtraction, as [FormatTime] does, gives the residues. *)
Lemma clock_fields (S : Z) :
  0 <= S ->
  let D := S / (60 * 60 * 24) in
  let H := S / (60 * 60) - D * 24 in
  let M := S / 60 - D * 24 * 60 - H * 60 in
  0 <= D <= S /\
  H = (S / 3600) mod 24 /\
  M = (S / 60) mod 60 /\
  S - D * 24 * 60 * 60 - H * 60 * 60 - M * 60 = S mod 60.
Proof.
  intros HS D H M. subst D H M.
  change (60 * 60 * 24) with (3600 * 24). change (60 * 60) with 3600.
  rewrite <- (Z.div_div S 3600 24) by lia.
  replace (S / 3600) with (S / 60 / 60) by (rewrite Z.div_div by lia; reflexivity).
  set (m := S / 60). set (a := m / 60).
  pose proof (Z.div_mod S 60 ltac:(lia)) as E1. fold m in E1.
  pose proof (Z.div_mod m 60 ltac:(lia)) as E2. fold a in E2.
  pose proof (Z.div_mod a 24 ltac:(lia)) as E3.
  pose proof (Z.mod_pos_bound S 60 ltac:(lia)).
  pose proof (Z.mod_pos_bound m 60 ltac:(lia)).
  pose proof (Z.mod_pos_bound a 24 ltac:(lia)).
  assert (0 <= m) by (apply Z.div_pos; lia).
  assert (0 <= a) by (apply Z.div_pos; lia).
  assert (0 <= a / 24) by (apply Z.div_pos; lia).
  repeat split; lia.
Qed.

Lemma UInt64_wrap_small (z : Z) : 0 <= z < 2 ^ 64 -> UInt64.wrap z = z.
Proof. intros H. unfold UInt64.wrap, UInt64.modulus. now apply Z.mod_small. Qed.

End TimeFields.

(** C9.  The zero time point is rendered as [00:00:00.000000] with no
    suffix.  Any other time point is rendered from its tick count
    converted to microseconds as [[DDD ]HH:MM:SS.uuuuuu [STD]]: the day
    count followed by [D] and a space, present exactly when the day count
    is not zero, then hours, minutes and seconds zero-padded to two digits
    and microseconds zero-padded to six, then [ [STD]]. *)
Theorem FormatTime_renders (f tp : Z) :
  0 < f < 2 ^ 63 -> 0 <= tp < 2 ^ 64 ->
  Sync.FormatTime f 0 = "00:00:00.000000"%string /\
  Sync.FormatTime f tp = SyncSpec.FormatTime_spec f tp.
Proof.
  intros Hf Htp. split; [reflexivity|].
  unfold Sync.FormatTime, SyncSpec.FormatTime_spec, Sync.is_zero.
  destruct (Z.eqb_spec tp 0) as [|Hnz]; [reflexivity|].
  unfold Sync.us_since_epoch, UInt64.div, UInt64.rem.
  rewrite (UInt64_wrap_small f) by lia.
  set (T := tp / f).
  assert (HT : 0 <= T <= tp).
  { subst T. split; [apply Z.div_pos; lia|].
    apply Z.div_le_upper_bound; nia. }
  set (S := T / 1000000).
  assert (HS : 0 <= S <= T).
  { subst S. split; [apply Z.div_pos; lia|].
    apply Z.div_le_upper_bound; lia. }
  destruct (clock_fields S (proj1 HS)) as (HD & HH & HM & HSec).
  set (D := S / (60 * 60 * 24)) in *.
  pose proof (Z.mod_pos_bound (S / 3600) 24 ltac:(lia)) as BH.
  pose proof (Z.mod_pos_bound (S / 60) 60 ltac:(lia)) as BM.
  pose proof (Z.mod_pos_bound S 60 ltac:(lia)) as BS.
  pose proof (Z.mod_pos_bound T 1000000 ltac:(lia)) as BU.
  unfold UInt64.sub, UInt64.mul.
  rewrite (UInt64_wrap_small (D * 24)) by lia.
  rewrite (UInt64_wrap_small (S / (60 * 60) - D * 24)) by lia.
  rewrite (UInt64_wrap_small (D * 24 * 60)) by lia.
  rewrite (UInt64_wrap_small (D * 24 * 60 * 60)) by lia.
  rewrite (UInt64_wrap_small (S / 60 - D * 24 * 60)) by lia.
  rewrite (UInt64_wrap_small ((S / (60 * 60) - D * 24) * 60)) by lia.
  rewrite (UInt64_wrap_small ((S / (60 * 60) - D * 24) * 60 * 60)) by lia.
  rewrite (UInt64_wrap_small (S / 60 - D * 24 * 60 - (S / (60 * 60) - D * 24) * 60)) by lia.
  rewrite (UInt64_wrap_small ((S / 60 - D * 24 * 60 - (S / (60 * 60) - D * 24) * 60) * 60)) by lia.
  rewrite (UInt64_wrap_small (S - D * 24 * 60 * 60)) by lia.
  rewrite (UInt64_wrap_small (S - D * 24 * 60 * 60 - (S / (60 * 60) - D * 24) * 60 * 60)) by lia.
  rewrite (UInt64_wrap_small (S - D * 24 * 60 * 60 - (S / (60 * 60) - D * 24) * 60 * 60
     - (S / 60 - D * 24 * 60 - (S / (60 * 60) - D * 24) * 60) * 60)) by lia.
  rewrite HSec, HM, HH.
  replace (T / 86400000000) with D
    by (subst D S; rewrite Z.div_div by lia; reflexivity).
  replace (T / 3600000000) with (S / 3600)
    by (subst S; rewrite Z.div_div by lia; reflexivity).
  replace (T / 60000000) with (S / 60)
    by (subst S; rewrite Z.div_div by lia; reflexivity).
  fold S.
  set (out := if D =? 0 then OStream.empty else _).
  assert (Hout : out = {| OStream.buf :=
                            if D =? 0 then EmptyString
                            else (SyncSpec.numeral D ++ "D ")%string;
                          OStream.fill := " "%char; OStream.width := 0 |}).
  { subst out. destruct (D =? 0); [reflexivity|].
    unfold OStream.put_uint64, OStream.put_string, OStream.empty.
    cbn [OStream.buf OStream.fill OStream.width Nat.sub OStream.replicate append].
    rewrite dec_numeral by lia. reflexivity. }
  rewrite Hout. clear Hout out.
  rewrite put_uint64_fixed by (simpl; lia).
  unfold OStream.put_string at 4. cbn [OStream.buf OStream.fill OStream.width].
  rewrite put_uint64_fixed by (simpl; lia).
  unfold OStream.put_string at 3. cbn [OStream.buf OStream.fill OStream.width].
  rewrite put_uint64_fixed by (simpl; lia).
  unfold OStream.put_string at 2. cbn [OStream.buf OStream.fill OStream.width].
  rewrite put_uint64_fixed by (simpl; lia).
  unfold OStream.put_string, OStream.str. cbn [OStream.buf OStream.fill OStream.width].
  cbn [Nat.sub String.length OStream.replicate].
  rewrite !string_app_assoc. reflexivity.
Qed.

Lemma FormatTime_renders_witness :
  Sync.FormatTime 2400 0 = "00:00:00.000000"%string /\
  Sync.FormatTime 2400 2501043600014400
  = SyncSpec.FormatTime_spec 2400 2501043600014400.
Proof.
  apply (FormatTime_renders 2400 2501043600014400); lia.
Defined.

(** The rendering on concrete time points, one tick per microsecond. *)
Example FormatTime_days :
  Sync.FormatTime 1 1047845000006 = "12D 03:04:05.000006 [STD]"%string.
Proof. vm_compute. reflexivity. Qed.

Example FormatTime_no_days :
  Sync.FormatTime 1 11045000006 = "03:04:05.000006 [STD]"%string.
Proof. vm_compute. reflexivity. Qed.

(** ** Modular arithmetic on sequence numbers *)

Section SeqNoFacts.

Import SeqNo LossListProps.

Lemma signed31_range (z : Z) : - 2 ^ 30 <= signed31 z < 2 ^ 30.
Proof.
  unfold signed31. pose proof (Z.mod_pos_bound z (2 ^ 31) ltac:(lia)).
  destruct (Z.ltb_spec (z mod 2 ^ 31) (2 ^ 30)); lia.
Qed.

(** [signed31 z] differs from [z] by a multiple of [2^31]. *)
Lemma signed31_cong (z : Z) : exists k, signed31 z = z + k * 2 ^ 31.
Proof.
  unfold signed31. pose proof (Z.div_mod z (2 ^ 31) ltac:(lia)) as E.
  destruct (Z.ltb_spec (z mod 2 ^ 31) (2 ^ 30)).
  - exists (- (z / 2 ^ 31)). lia.
  - exists (- (z / 2 ^ 31) - 1). lia.
Qed.

(** The signed value is determined by the range and the residue. *)
Lemma signed31_unique (z v k : Z) :
  - 2 ^ 30 <= v < 2 ^ 30 -> v = z + k * 2 ^ 31 -> signed31 z = v.
Proof.
  intros Hv E. destruct (signed31_cong z) as (k' & E').
  pose proof (signed31_range z). lia.
Qed.

Lemma seqoff_spec (a b : Z) :
  - 2 ^ 30 <= seqoff a b < 2 ^ 30 /\ exists k, seqoff a b = b - a + k * 2 ^ 31.
Proof. split; [apply signed31_range | apply signed31_cong]. Qed.


Lemma incseq_spec (x : Z) :
  seqno (incseq x) /\ exists k, incseq x = x + 1 + k * 2 ^ 31.
Proof.
  unfold incseq, seqno. split; [apply Z.mod_pos_bound; lia|].
  exists (- ((x + 1) / 2 ^ 31)).
  pose proof (Z.div_mod (x + 1) (2 ^ 31) ltac:(lia)). lia.
Qed.

Lemma at_offset_spec (b k : Z) :
  seqno (at_offset b k) /\ exists j, at_offset b k = b + k + j * 2 ^ 31.
Proof.
  unfold at_offset, seqno. split; [apply Z.mod_pos_bound; lia|].
  exists (- ((b + k) / 2 ^ 31)).
  pose proof (Z.div_mod (b + k) (2 ^ 31) ltac:(lia)). lia.
Qed.

Lemma seqoff_unique (a b v k : Z) :
  - 2 ^ 30 <= v < 2 ^ 30 -> v = b - a + k * 2 ^ 31 -> seqoff a b = v.
Proof. apply signed31_unique. Qed.

Lemma seqcmp_unique (a b v k : Z) :
  - 2 ^ 30 <= v < 2 ^ 30 -> v = a - b + k * 2 ^ 31 -> seqcmp a b = v.
Proof. apply signed31_unique. Qed.

End SeqNoFacts.

(** [seq_facts x y ...] brings in the range and the residue of every
    modular quantity named in the goal or the hypotheses, after which the
    goals are linear integer arithmetic. *)
Ltac seq_pose_off a b :=
  let R := fresh "R" in let k := fresh "k" in let E := fresh "E" in
  destruct (seqoff_spec a b) as (R & (k & E)).
Ltac seq_pose_inc x :=
  let R := fresh "R" in let k := fresh "k" in let E := fresh "E" in
  destruct (incseq_spec x) as (R & (k & E)).

Section Window.

Import SeqNo LossListProps.

Variable b : Z.

(** Inside the window that starts at [b] the modular offset is the
    difference of the offsets from [b]. *)
Lemma seqoff_coord (x y : Z) :
  0 <= coord b x -> 0 <= coord b y -> seqoff x y = coord b y - coord b x.
Proof.
  unfold coord. intros Hx Hy.
  seq_pose_off b x. seq_pose_off b y.
  apply seqoff_unique with (k := k0 - k); lia.
Qed.

Lemma seqcmp_coord (x y : Z) :
  0 <= coord b x -> 0 <= coord b y -> seqcmp x y = coord b x - coord b y.
Proof.
  unfold coord. intros Hx Hy.
  seq_pose_off b x. seq_pose_off b y.
  apply seqcmp_unique with (k := k - k0); lia.
Qed.

Lemma coord_incseq (x : Z) :
  0 <= coord b x -> coord b x + 1 < 2 ^ 30 ->
  coord b (incseq x) = coord b x + 1.
Proof.
  unfold coord. intros Hx Hy.
  seq_pose_off b x. seq_pose_inc x.
  apply seqoff_unique with (k := k - k0); lia.
Qed.

Lemma coord_inj (x y : Z) :
  seqno x -> seqno y -> coord b x = coord b y -> x = y.
Proof.
  unfold coord, seqno. intros Hx Hy E.
  seq_pose_off b x. seq_pose_off b y. lia.
Qed.

Lemma coord_at_offset (k : Z) :
  - 2 ^ 30 <= k < 2 ^ 30 -> coord b (at_offset b k) = k.
Proof.
  unfold coord. intros Hk. destruct (at_offset_spec b k) as (_ & j & E).
  apply seqoff_unique with (k := - j); lia.
Qed.

Lemma at_offset_coord (x : Z) : seqno x -> at_offset b (coord b x) = x.
Proof.
  unfold coord, seqno. intros Hx.
  destruct (at_offset_spec b (seqoff b x)) as (Hs & j & E).
  seq_pose_off b x. unfold seqno in Hs. lia.
Qed.

Lemma incseq_at_offset (k : Z) : incseq (at_offset b k) = at_offset b (k + 1).
Proof.
  unfold incseq, at_offset.
  rewrite Z.add_mod_idemp_l by lia. f_equal. lia.
Qed.

End Window.

(** ** Ascending chains of ranges *)

Section Chains.

Import SeqNo SndLossList LossListProps.

Variable b : Z.

Lemma csorted_weaken (l : list Range) (low low' : Z) :
  low' <= low -> csorted b low l -> csorted b low' l.
Proof.
  destruct l as [|r rest]; [trivial|]. cbn [csorted].
  intros Hle (Hh & Ht & Hl & Hv & Hrest).
  refine (conj Hh (conj Ht (conj _ (conj Hv Hrest)))). lia.
Qed.

Lemma csorted_app (l1 l2 : list Range) :
  forall low,
    csorted b low (l1 ++ l2) <->
    csorted b low l1 /\ csorted b (upper b low l1) l2.
Proof.
  induction l1 as [|r l1 IH]; intros low; cbn [app csorted upper].
  - tauto.
  - rewrite IH. tauto.
Qed.

Lemma upper_ge (l : list Range) :
  forall low, csorted b low l -> low <= upper b low l.
Proof.
  induction l as [|r l IH]; intros low; cbn [csorted upper]; [lia|].
  intros (_ & _ & Hl & Hv & Hrest). specialize (IH _ Hrest). lia.
Qed.

Lemma csorted_in_window (l : list Range) :
  forall low, 0 <= low -> csorted b low l -> in_window b l.
Proof.
  unfold in_window.
  induction l as [|r l IH]; intros low Hlow; cbn [csorted]; [constructor|].
  intros (_ & _ & Hl & Hv & Hrest). constructor; [lia|].
  apply (IH (coord b (tail r) + 2)); [lia | exact Hrest].
Qed.

(** The size of an entry of a chain is the difference of its offsets
    plus one; it is at least one. *)
Lemma seqlen_coord (x y : Z) :
  0 <= coord b x -> 0 <= coord b y ->
  seqlen x y = coord b y - coord b x + 1.
Proof. intros. unfold seqlen. rewrite (seqoff_coord b); auto. Qed.

Lemma sum_sizes_app (l1 l2 : list Range) :
  sum_sizes (l1 ++ l2) = sum_sizes l1 + sum_sizes l2.
Proof. induction l1 as [|r l1 IH]; cbn [app sum_sizes]; lia. Qed.

Lemma sum_sizes_ge_entries (l : list Range) :
  forall low, 0 <= low -> csorted b low l ->
              Z.of_nat (List.length l) <= sum_sizes l.
Proof.
  induction l as [|r l IH]; intros low Hlow; cbn [csorted sum_sizes List.length];
    [lia|].
  intros (_ & _ & Hl & Hv & Hrest).
  specialize (IH (coord b (tail r) + 2) ltac:(lia) Hrest).
  rewrite seqlen_coord by lia. lia.
Qed.

(** Membership in a range of the window, in offsets. *)
Lemma in_range_coord (r : Range) (x : Z) :
  0 <= coord b (head r) -> coord b (head r) <= coord b (tail r) ->
  (in_range r x = true <-> coord b (head r) <= coord b x <= coord b (tail r)).
Proof.
  intros Hh Ht. unfold in_range. rewrite andb_true_iff, !Z.leb_le. split.
  - intros (H1 & H2). unfold coord in *.
    seq_pose_off (head r) x. seq_pose_off x (tail r).
    seq_pose_off b (head r). seq_pose_off b (tail r). seq_pose_off b x.
    lia.
  - intros H.
    rewrite (seqoff_coord b (head r) x), (seqoff_coord b x (tail r)) by lia.
    lia.
Qed.

Lemma covers_app (l1 l2 : list Range) (x : Z) :
  covers (l1 ++ l2) x = covers l1 x || covers l2 x.
Proof. apply existsb_app. Qed.

Lemma covers_lower (l : list Range) (x : Z) :
  forall low, 0 <= low -> csorted b low l -> covers l x = true ->
              low <= coord b x.
Proof.
  induction l as [|r l IH]; intros low Hlow; cbn [csorted covers existsb];
    [discriminate|].
  intros (_ & _ & Hl & Hv & Hrest) H. apply orb_true_iff in H.
  destruct H as [H|H].
  - apply in_range_coord in H; lia.
  - specialize (IH (coord b (tail r) + 2) ltac:(lia) Hrest H). lia.
Qed.

End Chains.

Section Rebase.

Import SeqNo SndLossList LossListProps.

(** A chain that is ascending in one window is ascending in every
    window that contains its entries. *)
Lemma csorted_rebase (b0 b : Z) (l : list Range) :
  forall low0 low,
    0 <= low0 -> csorted b0 low0 l -> in_window b l ->
    (forall r, hd_error l = Some r -> low <= coord b (head r)) ->
    csorted b low l.
Proof.
  unfold in_window.
  induction l as [|r l IH]; intros low0 low Hlow0; cbn [csorted]; [trivial|].
  intros (Hh & Ht & Hl & Hv & Hrest) Hw Hhd.
  pose proof (Forall_inv Hw) as (Wh & Wt). apply Forall_inv_tail in Hw.
  assert (E : coord b (tail r) - coord b (head r)
              = coord b0 (tail r) - coord b0 (head r)).
  { rewrite <- (seqoff_coord b) by lia. rewrite <- (seqoff_coord b0) by lia.
    reflexivity. }
  refine (conj Hh (conj Ht (conj _ (conj _ _)))).
  - apply Hhd. reflexivity.
  - lia.
  - apply (IH (coord b0 (tail r) + 2)); auto; try lia.
    intros r' Hr'. destruct l as [|r0 l]; [discriminate|].
    cbn in Hr'. injection Hr' as ->.
    cbn [csorted] in Hrest. destruct Hrest as (_ & _ & Hl' & _).
    pose proof (Forall_inv Hw) as (Wh' & _).
    assert (E' : coord b (head r') - coord b (tail r)
                 = coord b0 (head r') - coord b0 (tail r)).
    { rewrite <- (seqoff_coord b) by lia. rewrite <- (seqoff_coord b0) by lia.
      reflexivity. }
    lia.
Qed.

End Rebase.

(** ** [popLostSeq] *)

Section Pop.

Import SeqNo SndLossList LossListProps.

Variable b : Z.

Lemma coord_range (x : Z) : - 2 ^ 30 <= coord b x < 2 ^ 30.
Proof. apply signed31_range. Qed.

(** What one [popLostSeq] does to a non-empty chain. *)
Lemma popLostSeq_chain (s : t) (r : Range) (rest : list Range) :
  entries s = r :: rest -> csorted b 0 (entries s) ->
  fst (popLostSeq s) = head r /\
  csorted b 0 (entries (snd (popLostSeq s))) /\
  sum_sizes (entries (snd (popLostSeq s))) = sum_sizes (entries s) - 1 /\
  length (snd (popLostSeq s)) = length s - 1 /\
  capacity (snd (popLostSeq s)) = capacity s /\
  (forall x, seqno x ->
     (covers (entries (snd (popLostSeq s))) x = true <->
      covers (entries s) x = true /\ x <> head r)).
Proof.
  intros E Hc. unfold popLostSeq. rewrite E in *.
  cbn [csorted] in Hc. destruct Hc as (Hh & Ht & Hl & Hv & Hrest).
  pose proof (coord_range (tail r)) as Rt.
  destruct (Z.eqb_spec (head r) (tail r)) as [Heq|Hne];
    cbn [fst snd entries length capacity sum_sizes].
  - refine (conj eq_refl (conj _ (conj _ (conj eq_refl (conj eq_refl _))))).
    + apply csorted_weaken with (low := coord b (tail r) + 2); [lia | exact Hrest].
    + rewrite (seqlen_coord b) by lia. rewrite <- Heq. lia.
    + intros x Hx. cbn [covers existsb]. fold (covers rest x).
      rewrite orb_true_iff. split.
      * intros H. split; [now right|]. intros ->.
        apply (covers_lower b) with (low := coord b (tail r) + 2) in H; auto; lia.
      * intros ([H|H] & Hn); [|exact H]. exfalso. apply Hn.
        apply in_range_coord with (b := b) in H; try lia.
        apply (coord_inj b); auto. rewrite <- Heq in H. lia.
  - assert (Hlt : coord b (head r) < coord b (tail r)).
    { assert (coord b (head r) <> coord b (tail r))
        by (intros Ec; apply Hne; now apply (coord_inj b)).
      lia. }
    pose proof (coord_incseq b (head r) ltac:(lia) ltac:(lia)) as Ei.
    refine (conj eq_refl (conj _ (conj _ (conj eq_refl (conj eq_refl _))))).
    + cbn [csorted head tail].
      refine (conj _ (conj Ht (conj _ (conj _ Hrest)))); try lia.
      apply incseq_spec.
    + cbn [sum_sizes head tail]. rewrite !(seqlen_coord b) by lia. lia.
    + intros x Hx. cbn [covers existsb]. fold (covers rest x).
      rewrite !orb_true_iff.
      rewrite (in_range_coord b) by (cbn [head tail]; lia).
      rewrite (in_range_coord b r) by lia. cbn [head tail].
      split.
      * intros [H|H].
        -- split; [left; lia|]. intros ->. lia.
        -- split; [now right|]. intros ->.
           apply (covers_lower b) with (low := coord b (tail r) + 2) in H; auto; lia.
      * intros ([H|H] & Hn); [left | now right].
        assert (coord b x <> coord b (head r))
          by (intros Ec; apply Hn; now apply (coord_inj b)).
        lia.
Qed.

(** The value popped from a chain is its smallest sequence number. *)
Lemma chain_head_least (l : list Range) (r : Range) (rest : list Range) (x : Z) :
  l = r :: rest -> csorted b 0 l -> covers l x = true ->
  covers l (head r) = true /\ seqcmp (head r) x <= 0.
Proof.
  intros -> Hc Hx. pose proof Hc as Hc'.
  cbn [csorted] in Hc. destruct Hc as (Hh & Ht & Hl & Hv & Hrest).
  split.
  - cbn [covers existsb]. apply orb_true_iff. left.
    apply (in_range_coord b); lia.
  - apply (covers_lower b) with (low := coord b (head r)) in Hx; try lia.
    + rewrite (seqcmp_coord b) by lia. lia.
    + cbn [csorted]. refine (conj Hh (conj Ht (conj _ (conj Hv Hrest)))). lia.
Qed.

End Pop.

(** C2.  On a well-formed list [popLostSeq] returns [-1] exactly when the
    list is empty (no entry, length zero), and then leaves it as it is.
    Otherwise the value returned is a sequence number of the list, it is
    smaller than or equal to every sequence number of the list in modular
    order, afterwards the list holds the same sequence numbers except that
    one, and [length] is one less. *)
Theorem popLostSeq_smallest (s : SndLossList.t) :
  LossListProps.WF s ->
  (fst (SndLossList.popLostSeq s) = -1 <-> SndLossList.entries s = []) /\
  (SndLossList.getLossLength s = 0 <-> SndLossList.entries s = []) /\
  (SndLossList.entries s = [] -> SndLossList.popLostSeq s = (-1, s)) /\
  (SndLossList.entries s <> [] ->
   let v := fst (SndLossList.popLostSeq s) in
   let s' := snd (SndLossList.popLostSeq s) in
   SeqNo.seqno v /\
   LossListProps.covers (SndLossList.entries s) v = true /\
   (forall x, LossListProps.covers (SndLossList.entries s) x = true ->
              SeqNo.seqcmp v x <= 0) /\
   (forall x, SeqNo.seqno x ->
      (LossListProps.covers (SndLossList.entries s') x = true <->
       LossListProps.covers (SndLossList.entries s) x = true /\ x <> v)) /\
   SndLossList.getLossLength s' = SndLossList.getLossLength s - 1 /\
   LossListProps.WF s').
Proof.
  intros ((b & Hc) & Hlen).
  destruct (SndLossList.entries s) as [|r rest] eqn:E.
  - refine (conj _ (conj _ (conj _ _))).
    + unfold SndLossList.popLostSeq. rewrite E. cbn. tauto.
    + unfold SndLossList.getLossLength. rewrite Hlen. cbn. tauto.
    + intros _. unfold SndLossList.popLostSeq. rewrite E. reflexivity.
    + intros H. now contradiction H.
  - pose proof (popLostSeq_chain b s r rest E) as P.
    rewrite E in P. specialize (P Hc).
    destruct P as (Pv & Pc & Psum & Plen & _ & Pcov).
    pose proof Hc as Hc'. cbn [LossListProps.csorted] in Hc'.
    destruct Hc' as (Hh & Ht & Hl & Hv & Hrest).
    refine (conj _ (conj _ (conj _ _))).
    + rewrite Pv. unfold SeqNo.seqno in Hh. split; [lia | discriminate].
    + unfold SndLossList.getLossLength. rewrite Hlen.
      pose proof (sum_sizes_ge_entries b (r :: rest) 0 ltac:(lia) Hc) as G.
      cbn [List.length] in G. split; [lia | discriminate].
    + discriminate.
    + intros _. cbv zeta. rewrite Pv.
      refine (conj Hh (conj _ (conj _ (conj Pcov (conj Plen _))))).
      * destruct (chain_head_least b (r :: rest) r rest (SndLossList.head r)
                    eq_refl Hc) as (H & _); [|exact H].
        cbn [LossListProps.covers existsb]. apply orb_true_iff. left.
        apply (in_range_coord b); lia.
      * intros x Hx.
        now destruct (chain_head_least b (r :: rest) r rest x eq_refl Hc Hx).
      * split; [now exists b|]. rewrite Plen, Psum, Hlen. reflexivity.
Qed.

Lemma popLostSeq_smallest_witness :
  let s := snd (SndLossList.insert
                  (snd (SndLossList.insert (SndLossList.new 256) 4 8)) 1 2) in
  SndLossList.popLostSeq s
  = (1, {| SndLossList.capacity := 256;
           SndLossList.entries :=
             [ {| SndLossList.head := 2; SndLossList.tail := 2 |};
               {| SndLossList.head := 4; SndLossList.tail := 8 |} ];
           SndLossList.length := 6;
           SndLossList.last_insert := Some 0%nat |}) /\
  (SndLossList.getLossLength s = 0 <-> SndLossList.entries s = []).
Proof.
  intros s. split; [reflexivity|].
  assert (W : LossListProps.WF s).
  { split; [exists 0 | reflexivity].
    cbv. repeat split; discriminate. }
  exact (proj1 (proj2 (popLostSeq_smallest s W))).
Defined.

(** ** [remove] *)

Section Remove.

Import SeqNo SndLossList LossListProps.

Variable b : Z.


(** Inside the window the walk drops exactly the sequence numbers up to
    [seq]. *)
Lemma remove_scan_covers (seq x : Z) (l : list Range) :
  0 <= coord b seq ->
  forall (len : Z) (u : nat) (low : Z),
    0 <= low -> csorted b low l ->
    (covers (fst (fst (remove_scan seq l len u))) x = true <->
     covers l x = true /\ coord b seq < coord b x).
Proof.
  intros Hseq.
  induction l as [|r l IH]; intros len u low Hlow Hc; cbn [remove_scan].
  - cbn. split; [discriminate | tauto].
  - pose proof Hc as Hc'. cbn [csorted] in Hc'.
    destruct Hc' as (Hh & Ht & Hl & Hv & Hrest).
    pose proof (coord_range b (tail r)) as Rt.
    rewrite !(seqcmp_coord b) by lia.
    assert (Hrest_low : covers l x = true -> coord b (tail r) + 2 <= coord b x).
    { apply (covers_lower b); [lia | exact Hrest]. }
    destruct (Z.leb_spec (coord b (tail r) - coord b seq) 0) as [C1|C1].
    + rewrite (IH _ _ (coord b (tail r) + 2) ltac:(lia) Hrest).
      cbn [covers existsb]. fold (covers l x). rewrite orb_true_iff.
      rewrite (in_range_coord b r) by lia. split.
      * intros (H & G). split; [now right | exact G].
      * intros ([H|H] & G); [lia | now split].
    + destruct (Z.leb_spec (coord b (head r) - coord b seq) 0) as [C2|C2];
        cbn [fst snd].
      * pose proof (coord_incseq b seq ltac:(lia) ltac:(lia)) as Ei.
        cbn [covers existsb]. fold (covers l x). rewrite !orb_true_iff.
        rewrite (in_range_coord b) by (cbn [head tail]; lia).
        rewrite (in_range_coord b r) by lia. cbn [head tail].
        split.
        -- intros [H|H]; [split; [left|]; lia|].
           split; [now right|]. specialize (Hrest_low H). lia.
        -- intros ([H|H] & G); [left; lia | now right].
      * split; [|tauto]. intros H. split; [exact H|].
        apply (covers_lower b) with (low := coord b (head r)) in H; try lia.
        cbn [csorted]. refine (conj Hh (conj Ht (conj _ (conj Hv Hrest)))). lia.
Qed.

Lemma csorted_In (l : list Range) (r : Range) :
  forall low, 0 <= low -> csorted b low l -> In r l ->
              low <= coord b (head r) <= coord b (tail r).
Proof.
  induction l as [|r0 l IH]; intros low Hlow; cbn [csorted In]; [tauto|].
  intros (Hh & Ht & Hl & Hv & Hrest) [->|Hin]; [lia|].
  specialize (IH (coord b (tail r0) + 2) ltac:(lia) Hrest Hin). lia.
Qed.

(** When the walk meets a straddled range, what remains of it is the
    range from [seq + 1] to its tail. *)
Lemma remove_scan_split (seq : Z) (r : Range) (l : list Range) :
  0 <= coord b seq ->
  coord b (head r) <= coord b seq < coord b (tail r) ->
  forall (len : Z) (u : nat) (low : Z),
    0 <= low -> csorted b low l -> In r l ->
    In {| head := incseq seq; tail := tail r |}
       (fst (fst (remove_scan seq l len u))).
Proof.
  intros Hseq Hr.
  induction l as [|r0 l IH]; intros len u low Hlow Hc Hin; cbn [remove_scan].
  - destruct Hin.
  - pose proof Hc as Hc'. cbn [csorted] in Hc'.
    destruct Hc' as (Hh & Ht & Hl & Hv & Hrest).
    assert (Hlater : In r l -> coord b (tail r0) + 2 <= coord b (head r)).
    { intros H. apply (csorted_In l r (coord b (tail r0) + 2) ltac:(lia) Hrest H). }
    rewrite !(seqcmp_coord b) by lia.
    destruct (Z.leb_spec (coord b (tail r0) - coord b seq) 0) as [C1|C1].
    + destruct Hin as [->|Hin]; [lia|].
      apply (IH _ _ (coord b (tail r0) + 2)); auto; lia.
    + destruct (Z.leb_spec (coord b (head r0) - coord b seq) 0) as [C2|C2];
        cbn [fst snd].
      * destruct Hin as [->|Hin]; [now left|].
        specialize (Hlater Hin). lia.
      * destruct Hin as [->|Hin]; [lia|].
        specialize (Hlater Hin). lia.
Qed.

End Remove.

(** C3.  For a list whose entries are in order in a window that also
    contains [seq]: after [remove(seq)] the list holds exactly the
    sequence numbers it held that are greater than [seq] in modular order;
    of a range that straddles [seq] the range from [seq + 1] to its tail
    remains; and when [seq] is at a negative offset from the head of the
    list, [remove(seq)] returns the list unchanged. *)
Theorem remove_drops_upto (b : Z) (s : SndLossList.t) (seq : Z) :
  LossListProps.csorted b 0 (SndLossList.entries s) ->
  0 <= LossListProps.coord b seq ->
  (forall x,
     LossListProps.covers (SndLossList.entries (SndLossList.remove s seq)) x = true <->
     LossListProps.covers (SndLossList.entries s) x = true /\
     0 < SeqNo.seqcmp x seq) /\
  (forall r,
     In r (SndLossList.entries s) ->
     SeqNo.seqcmp (SndLossList.head r) seq <= 0 ->
     0 < SeqNo.seqcmp (SndLossList.tail r) seq ->
     In {| SndLossList.head := SeqNo.incseq seq;
           SndLossList.tail := SndLossList.tail r |}
        (SndLossList.entries (SndLossList.remove s seq))) /\
  (forall r rest,
     SndLossList.entries s = r :: rest ->
     SeqNo.seqoff (SndLossList.head r) seq < 0 ->
     SndLossList.remove s seq = s).
Proof.
  intros Hc Hseq.
  assert (Hcmp : forall x, LossListProps.covers (SndLossList.entries s) x = true ->
                           SeqNo.seqcmp x seq
                           = LossListProps.coord b x - LossListProps.coord b seq).
  { intros x Hx. apply (seqcmp_coord b); [|exact Hseq].
    apply (covers_lower b) with (low := 0) in Hx; auto; lia. }
  refine (conj _ (conj _ _)).
  - intros x. unfold SndLossList.remove.
    destruct (SndLossList.entries s) as [|r rest] eqn:E.
    + rewrite E. cbn. split; [discriminate | tauto].
    + pose proof Hc as Hc'. cbn [LossListProps.csorted] in Hc'.
      destruct Hc' as (Hh & Ht & Hl & Hv & Hrest).
      rewrite (seqoff_coord b) by lia.
      destruct (Z.ltb_spec (LossListProps.coord b seq
                            - LossListProps.coord b (SndLossList.head r)) 0) as [G|G].
      * rewrite E. split; [|tauto]. intros H. split; [exact H|].
        rewrite (Hcmp x H).
        apply (covers_lower b) with (low := LossListProps.coord b (SndLossList.head r))
          in H; try lia.
        cbn [LossListProps.csorted].
        refine (conj Hh (conj Ht (conj _ (conj Hv Hrest)))). lia.
      * pose proof (remove_scan_covers b seq x (r :: rest) Hseq
                      (SndLossList.length s) O 0 ltac:(lia) Hc) as P.
        destruct (SndLossList.remove_scan seq (r :: rest) (SndLossList.length s) O)
          as ((l' & len') & u') eqn:R.
        cbn [fst snd SndLossList.entries] in *. rewrite P.
        split; intros (H & H'); (split; [exact H|]); rewrite (Hcmp x H) in *; lia.
  - intros r Hin C1 C2. unfold SndLossList.remove.
    destruct (SndLossList.entries s) as [|r0 rest] eqn:E; [destruct Hin|].
    pose proof (csorted_In b (r0 :: rest) r 0 ltac:(lia) Hc Hin) as Hr.
    pose proof (csorted_In b (r0 :: rest) r0 0 ltac:(lia) Hc (or_introl eq_refl)) as Hr0.
    rewrite !(seqcmp_coord b) in * by lia.
    rewrite (seqoff_coord b) by lia.
    assert (H0 : LossListProps.coord b (SndLossList.head r0)
                 <= LossListProps.coord b (SndLossList.head r)).
    { destruct Hin as [->|Hin]; [lia|].
      cbn [LossListProps.csorted] in Hc. destruct Hc as (_ & _ & _ & _ & Hrest).
      pose proof (csorted_In b rest r (LossListProps.coord b (SndLossList.tail r0) + 2) ltac:(lia) Hrest Hin). lia. }
    destruct (Z.ltb_spec (LossListProps.coord b seq
                          - LossListProps.coord b (SndLossList.head r0)) 0) as [G|G];
      [lia|].
    pose proof (remove_scan_split b seq r (r0 :: rest) Hseq ltac:(lia)
                  (SndLossList.length s) O 0 ltac:(lia) Hc Hin) as P.
    destruct (SndLossList.remove_scan seq (r0 :: rest) (SndLossList.length s) O)
      as ((l' & len') & u') eqn:R.
    exact P.
  - intros r rest E G. unfold SndLossList.remove. rewrite E.
    destruct (Z.ltb_spec (SeqNo.seqoff (SndLossList.head r) seq) 0); [reflexivity | lia].
Qed.

Example remove_scenarios :
  let ins lo hi s := snd (SndLossList.insert s lo hi) in
  let s := ins 10 12 (ins 4 8 (ins 1 2 (SndLossList.new 256))) in
  SndLossList.pop_all 20 (SndLossList.remove s 5) = Some [6; 8 - 1; 8; 10; 11; 12] /\
  SndLossList.getLossLength (SndLossList.remove s 5) = 6 /\
  SndLossList.remove s (-50) = s /\
  SndLossList.pop_all 20 (SndLossList.remove s 50) = Some [].
Proof. vm_compute. repeat split. Qed.

Lemma remove_drops_upto_witness :
  let s := snd (SndLossList.insert
                  (snd (SndLossList.insert (SndLossList.new 256) 1 2)) 4 8) in
  LossListProps.covers (SndLossList.entries (SndLossList.remove s 5)) 6 = true <->
  LossListProps.covers (SndLossList.entries s) 6 = true /\ 0 < SeqNo.seqcmp 6 5.
Proof.
  intros s.
  refine (proj1 (remove_drops_upto 0 s 5 _ _) 6).
  - cbv. repeat split; discriminate.
  - cbv. discriminate.
Defined.

(** ** [insert] *)

Section Merge.

Import SeqNo SndLossList LossListProps.

Variable b : Z.

Lemma coord_seqmin (x y : Z) :
  0 <= coord b x -> 0 <= coord b y ->
  coord b (seqmin x y) = Z.min (coord b x) (coord b y).
Proof.
  intros Hx Hy. unfold seqmin. rewrite (seqcmp_coord b) by lia.
  destruct (Z.leb_spec (coord b x - coord b y) 0); lia.
Qed.

Lemma coord_seqmax (x y : Z) :
  0 <= coord b x -> 0 <= coord b y ->
  coord b (seqmax x y) = Z.max (coord b x) (coord b y).
Proof.
  intros Hx Hy. unfold seqmax. rewrite (seqcmp_coord b) by lia.
  destruct (Z.leb_spec (coord b x - coord b y) 0); lia.
Qed.

Lemma seqno_seqmin (x y : Z) : seqno x -> seqno y -> seqno (seqmin x y).
Proof. unfold seqmin. now destruct (seqcmp x y <=? 0). Qed.

Lemma seqno_seqmax (x y : Z) : seqno x -> seqno y -> seqno (seqmax x y).
Proof. unfold seqmax. now destruct (seqcmp x y <=? 0). Qed.

(** The bookkeeping of the merge, whatever the arguments: the sizes of
    the entries that were merged away are what was added to the count of
    the already present. *)
Lemma merge_sizes (l : list Range) :
  forall lo hi a0,
    let '(front, m, a, behind) := merge lo hi a0 l in
    sum_sizes front + sum_sizes behind + (a - a0) = sum_sizes l.
Proof.
  induction l as [|r l IH]; intros lo hi a0; cbn [merge].
  - cbn. lia.
  - destruct (1 <? seqoff (tail r) lo).
    + specialize (IH lo hi a0).
      destruct (merge lo hi a0 l) as (((front, m), a), behind).
      cbn [sum_sizes]. lia.
    + destruct (1 <? seqoff hi (head r)).
      * cbn [sum_sizes]. lia.
      * specialize (IH (seqmin lo (head r)) (seqmax hi (tail r))
                       (a0 + seqlen (head r) (tail r))).
        destruct (merge (seqmin lo (head r)) (seqmax hi (tail r))
                        (a0 + seqlen (head r) (tail r)) l)
          as (((front, m), a), behind).
        cbn [sum_sizes]. lia.
Qed.

(** The merge of a range of the window into an ascending chain of the
    window: the result is an ascending chain, and it holds what the
    chain held together with the range. *)
Lemma merge_chain (l : list Range) :
  forall lo hi a0 low,
    0 <= low -> csorted b low l ->
    seqno lo -> seqno hi -> 0 <= coord b lo -> coord b lo <= coord b hi ->
    let '(front, m, a, behind) := merge lo hi a0 l in
    csorted b (Z.min low (coord b lo)) (front ++ m :: behind) /\
    (forall x, covers (front ++ m :: behind) x = true <->
               covers l x = true \/ coord b lo <= coord b x <= coord b hi).
Proof.
  induction l as [|r l IH]; intros lo hi a0 low Hlow Hc Slo Shi Hlo Hhi;
    cbn [merge].
  - cbn [app csorted covers existsb head tail]. split.
    + refine (conj Slo (conj Shi (conj _ (conj Hhi I)))). lia.
    + intros x. rewrite orb_false_r.
      rewrite (in_range_coord b) by (cbn [head tail]; lia).
      cbn [head tail]. split; [tauto | intros [H|H]; [discriminate | exact H]].
  - pose proof Hc as Hc'. cbn [csorted] in Hc'.
    destruct Hc' as (Hh & Ht & Hl & Hv & Hrest).
    rewrite (seqoff_coord b (tail r) lo), (seqoff_coord b hi (head r)) by lia.
    destruct (Z.ltb_spec 1 (coord b lo - coord b (tail r))) as [C1|C1].
    + specialize (IH lo hi a0 (coord b (tail r) + 2) ltac:(lia) Hrest
                     Slo Shi Hlo Hhi).
      destruct (merge lo hi a0 l) as (((front, m), a), behind).
      destruct IH as (I1 & I2). rewrite Z.min_l in I1 by lia.
      cbn [app csorted covers existsb]. split.
      * refine (conj Hh (conj Ht (conj _ (conj Hv I1)))). lia.
      * intros x. fold (covers (front ++ m :: behind) x). fold (covers l x).
        rewrite !orb_true_iff, I2. tauto.
    + destruct (Z.ltb_spec 1 (coord b (head r) - coord b hi)) as [C2|C2].
      * cbn [app csorted covers existsb head tail]. split.
        -- refine (conj Slo (conj Shi (conj _ (conj Hhi _)))); [lia|].
           refine (conj Hh (conj Ht (conj _ (conj Hv Hrest)))). lia.
        -- intros x. fold (covers l x). rewrite !orb_true_iff.
           rewrite (in_range_coord b {| head := lo; tail := hi |})
             by (cbn [head tail]; lia).
           cbn [head tail]. tauto.
      * pose proof (coord_seqmin lo (head r) Hlo ltac:(lia)) as Emin.
        pose proof (coord_seqmax hi (tail r) ltac:(lia) ltac:(lia)) as Emax.
        specialize (IH (seqmin lo (head r)) (seqmax hi (tail r))
                       (a0 + seqlen (head r) (tail r))
                       (coord b (tail r) + 2) ltac:(lia) Hrest
                       (seqno_seqmin _ _ Slo Hh) (seqno_seqmax _ _ Shi Ht)
                       ltac:(lia) ltac:(lia)).
        destruct (merge (seqmin lo (head r)) (seqmax hi (tail r))
                        (a0 + seqlen (head r) (tail r)) l)
          as (((front, m), a), behind).
        destruct IH as (I1 & I2). split.
        -- apply csorted_weaken with (2 := I1). lia.
        -- intros x. rewrite I2. cbn [covers existsb]. fold (covers l x).
           rewrite orb_true_iff, (in_range_coord b r) by lia.
           rewrite Emin, Emax. split; [intros [H|H] | intros [[H|H]|H]]; lia || tauto.
Qed.

End Merge.

Section Counting.

Import SeqNo SndLossList LossListProps.

Lemma countZ_ind (f : Z -> bool) (a : Z) (n : nat) :
  countZ f a (S n) = ind (f a) + countZ f (a + 1) n.
Proof. reflexivity. Qed.

Lemma countZ_add (f g h : Z -> bool) (n : nat) :
  forall a,
    (forall k, a <= k < a + Z.of_nat n -> ind (h k) = ind (f k) + ind (g k)) ->
    countZ h a n = countZ f a n + countZ g a n.
Proof.
  induction n as [|n IH]; intros a H; [reflexivity|].
  rewrite !countZ_ind. rewrite (IH (a + 1)) by (intros; apply H; lia).
  rewrite (H a) by lia. lia.
Qed.

Lemma countZ_ext (f g : Z -> bool) (n : nat) (a : Z) :
  (forall k, a <= k < a + Z.of_nat n -> f k = g k) ->
  countZ f a n = countZ g a n.
Proof.
  intros H. rewrite (countZ_add g (fun _ => false) f).
  - assert (Z0 : forall m x, countZ (fun _ => false) x m = 0)
      by (induction m; intros; cbn; auto).
    rewrite Z0. lia.
  - intros k Hk. rewrite (H k Hk). cbn. lia.
Qed.

Lemma countZ_false (f : Z -> bool) (n : nat) :
  forall a, (forall k, a <= k < a + Z.of_nat n -> f k = false) ->
            countZ f a n = 0.
Proof.
  induction n as [|n IH]; intros a H; [reflexivity|].
  rewrite countZ_ind, (H a), IH by (try (intros; apply H); lia). reflexivity.
Qed.

Lemma countZ_true (f : Z -> bool) (n : nat) :
  forall a, (forall k, a <= k < a + Z.of_nat n -> f k = true) ->
            countZ f a n = Z.of_nat n.
Proof.
  induction n as [|n IH]; intros a H; [reflexivity|].
  rewrite countZ_ind, (H a), IH by (try (intros; apply H); lia). cbn [ind]. lia.
Qed.

Lemma countZ_bounds (f : Z -> bool) (n : nat) :
  forall a, 0 <= countZ f a n <= Z.of_nat n.
Proof.
  induction n as [|n IH]; intros a; [cbn; lia|].
  rewrite countZ_ind. specialize (IH (a + 1)). unfold ind.
  destruct (f a); lia.
Qed.

Lemma countZ_app (f : Z -> bool) (n m : nat) :
  forall a, countZ f a (n + m) = countZ f a n + countZ f (a + Z.of_nat n) m.
Proof.
  induction n as [|n IH]; intros a.
  - cbn [Nat.add countZ]. replace (a + Z.of_nat 0) with a by lia. lia.
  - cbn [Nat.add]. rewrite !countZ_ind, IH.
    replace (a + 1 + Z.of_nat n) with (a + Z.of_nat (S n)) by lia. lia.
Qed.

(** Counting inside a segment what lies in a sub-interval and satisfies
    [q] is counting [q] over the sub-interval. *)
Lemma countZ_interval (q : Z -> bool) (a A B : Z) (n : nat) :
  a <= A -> A <= B + 1 -> B + 1 <= a + Z.of_nat n ->
  countZ (fun k => (A <=? k) && (k <=? B) && q k) a n
  = countZ q A (Z.to_nat (B - A + 1)).
Proof.
  intros H1 H2 H3.
  replace n with (Z.to_nat (A - a) + (Z.to_nat (B - A + 1)
                  + Z.to_nat (a + Z.of_nat n - (B + 1))))%nat by lia.
  rewrite !countZ_app.
  rewrite countZ_false.
  2:{ intros k Hk. destruct (Z.leb_spec A k); [lia | reflexivity]. }
  replace (a + Z.of_nat (Z.to_nat (A - a))) with A by lia.
  rewrite (countZ_false _ (Z.to_nat (a + Z.of_nat n - (B + 1)))).
  2:{ intros k Hk. destruct (Z.leb_spec k B); [lia|].
      now rewrite andb_false_r. }
  rewrite (countZ_ext _ q); [lia|].
  intros k Hk.
  destruct (Z.leb_spec A k); [|lia]. destruct (Z.leb_spec k B); [|lia].
  reflexivity.
Qed.

Variable b : Z.

Lemma count_from_countZ (p : Z -> bool) (n : nat) :
  forall a,
    count_from p (at_offset b a) n = countZ (fun k => p (at_offset b k)) a n.
Proof.
  induction n as [|n IH]; intros a; [reflexivity|].
  cbn [count_from]. rewrite countZ_ind. rewrite incseq_at_offset, IH.
  reflexivity.
Qed.

Lemma upper_le (l : list Range) :
  forall low, low <= 2 ^ 30 + 1 -> upper b low l <= 2 ^ 30 + 1.
Proof.
  induction l as [|r l IH]; intros low Hlow; cbn [upper]; [exact Hlow|].
  apply IH. pose proof (coord_range b (tail r)). lia.
Qed.

(** The sum of the sizes of an ascending chain is the number of offsets
    it covers. *)
Lemma size_count (l : list Range) (a : Z) (n : nat) :
  0 <= a -> a + Z.of_nat n <= 2 ^ 30 ->
  forall low,
    a <= low -> csorted b low l -> upper b low l <= a + Z.of_nat n + 1 ->
    sum_sizes l = countZ (fun k => covers l (at_offset b k)) a n.
Proof.
  intros Ha Hn.
  induction l as [|r l IH]; intros low Hlow Hc Hup.
  - cbn [sum_sizes covers existsb]. symmetry. now apply countZ_false.
  - pose proof Hc as Hc'. cbn [csorted] in Hc'.
    destruct Hc' as (Hh & Ht & Hl & Hv & Hrest).
    cbn [upper] in Hup. pose proof (upper_ge b l _ Hrest) as Hge.
    assert (Hin : forall k, a <= k < a + Z.of_nat n ->
              in_range r (at_offset b k)
              = (coord b (head r) <=? k) && (k <=? coord b (tail r)) && true).
    { intros k Hk. rewrite andb_true_r.
      pose proof (in_range_coord b r (at_offset b k) ltac:(lia) Hv) as I.
      rewrite coord_at_offset in I by lia.
      destruct (in_range r (at_offset b k)).
      - destruct I as (I & _). specialize (I eq_refl).
        symmetry. apply andb_true_iff. rewrite !Z.leb_le. exact I.
      - symmetry. apply not_true_iff_false. intros G.
        apply andb_true_iff in G. rewrite !Z.leb_le in G.
        destruct I as (_ & I). specialize (I G). discriminate. }
    cbn [sum_sizes].
    rewrite (IH (coord b (tail r) + 2)) by (auto; lia).
    rewrite (countZ_add (fun k => in_range r (at_offset b k))
                        (fun k => covers l (at_offset b k))
                        (fun k => covers (r :: l) (at_offset b k))).
    + f_equal. rewrite (countZ_ext _ _ n a Hin).
      rewrite countZ_interval by lia.
      rewrite countZ_true by reflexivity.
      rewrite (seqlen_coord b) by lia. lia.
    + intros k Hk. cbn [covers existsb]. fold (covers l (at_offset b k)).
      rewrite (Hin k Hk), andb_true_r.
      destruct (covers l (at_offset b k)) eqn:Ec.
      * apply (covers_lower b) with (low := coord b (tail r) + 2) in Ec;
          [|lia|exact Hrest].
        rewrite coord_at_offset in Ec by lia.
        destruct (Z.leb_spec k (coord b (tail r))); [lia|].
        rewrite andb_false_r. reflexivity.
      * rewrite orb_false_r. unfold ind.
        destruct ((coord b (head r) <=? k) && (k <=? coord b (tail r))); lia.
Qed.

End Counting.

Section Coalesce.

Import SeqNo SndLossList LossListProps.

Lemma nth_error_skipn (l : list Range) :
  forall k c, nth_error l k = Some c -> exists rest, skipn k l = c :: rest.
Proof.
  induction l as [|r l IH]; intros [|k] c H; try discriminate.
  - injection H as ->. now exists l.
  - cbn in H. cbn [skipn]. now apply IH.
Qed.

(** The scan starts either at the head of the chain or at the cached
    entry, and then the new range does not start before that entry. *)
Lemma scan_start_split (s : t) (lo : Z) :
  fst (scan_start s lo) ++ snd (scan_start s lo) = entries s /\
  (fst (scan_start s lo) = [] \/
   exists c rest, snd (scan_start s lo) = c :: rest /\ 0 <= seqcmp lo (head c)).
Proof.
  unfold scan_start.
  destruct (last_insert s) as [k|]; [|cbn; auto].
  destruct (nth_error (entries s) k) as [c|] eqn:E; [|cbn; auto].
  destruct (Z.leb_spec 0 (seqcmp lo (head c))) as [G|G]; [|cbn; auto].
  cbn [fst snd]. split; [apply firstn_skipn|]. right.
  destruct (nth_error_skipn _ _ _ E) as (rest & R).
  exists c, rest. now split.
Qed.

Variable b : Z.

(** Steps 1 to 5 of the insertion on a well-formed list, for a range of
    the window: the list stays well formed, it holds what it held
    together with the range, and the number returned is the growth of
    the sum of the sizes. *)
Lemma coalesce_chain (s : t) (lo hi : Z) :
  csorted b 0 (entries s) -> length s = sum_sizes (entries s) ->
  seqno lo -> seqno hi -> 0 <= coord b lo -> coord b lo <= coord b hi ->
  csorted b 0 (entries (snd (coalesce s lo hi))) /\
  (forall x, covers (entries (snd (coalesce s lo hi))) x = true <->
             covers (entries s) x = true \/
             coord b lo <= coord b x <= coord b hi) /\
  sum_sizes (entries (snd (coalesce s lo hi)))
  = sum_sizes (entries s) + fst (coalesce s lo hi) /\
  length (snd (coalesce s lo hi)) = length s + fst (coalesce s lo hi) /\
  capacity (snd (coalesce s lo hi)) = capacity s.
Proof.
  intros Hc Hlen Slo Shi Hlo Hhi. unfold coalesce.
  destruct (entries s) as [|r0 l0] eqn:E.
  - cbn [fst snd entries length capacity sum_sizes csorted covers existsb
             head tail].
    cbn [sum_sizes] in Hlen.
    refine (conj _ (conj _ (conj _ (conj _ eq_refl)))); try lia.
    + refine (conj Slo (conj Shi (conj Hlo (conj Hhi I)))).
    + intros x. rewrite orb_false_r.
      rewrite (in_range_coord b) by (cbn [head tail]; lia).
      cbn [head tail]. split; [tauto | intros [H|H]; [discriminate | exact H]].
  - rewrite <- E in *. clear E r0 l0.
    destruct (scan_start_split s lo) as (Happ & Hstart).
    destruct (scan_start s lo) as (skipped, from). cbn [fst snd] in *.
    rewrite <- Happ in Hc. apply csorted_app in Hc. destruct Hc as (Hc1 & Hc2).
    pose proof (upper_ge b skipped 0 Hc1) as HU.
    assert (HUlo : upper b 0 skipped <= coord b lo).
    { destruct Hstart as [->|(c & rest & -> & G)]; [exact Hlo|].
      cbn [csorted] in Hc2. destruct Hc2 as (_ & _ & Hl & _).
      rewrite (seqcmp_coord b) in G by lia. lia. }
    pose proof (merge_sizes from lo hi 0) as Hsz.
    pose proof (merge_chain b from lo hi 0 (upper b 0 skipped) HU Hc2
                  Slo Shi Hlo Hhi) as Hm.
    destruct (merge lo hi 0 from) as (((front, m), a), behind).
    destruct Hm as (M1 & M2). rewrite Z.min_l in M1 by lia.
    cbn [fst snd entries length capacity].
    refine (conj _ (conj _ (conj _ (conj eq_refl eq_refl)))).
    + apply csorted_app. split; assumption.
    + intros x.
      rewrite <- Happ, (covers_app skipped from),
        (covers_app skipped (front ++ m :: behind)), !orb_true_iff, M2.
      tauto.
    + rewrite <- Happ, (sum_sizes_app skipped from),
        (sum_sizes_app skipped (front ++ m :: behind)),
        (sum_sizes_app front (m :: behind)).
      cbn [sum_sizes]. lia.
Qed.

(** On a well-formed list and for a range of the window, steps 1 to 5
    return the number of sequence numbers of the range that the list did
    not hold. *)
Lemma coalesce_count (s : t) (lo hi : Z) :
  csorted b 0 (entries s) -> length s = sum_sizes (entries s) ->
  seqno lo -> seqno hi -> 0 <= coord b lo -> coord b lo <= coord b hi ->
  fst (coalesce s lo hi) = count_new (entries s) lo hi.
Proof.
  intros Hc Hlen Slo Shi Hlo Hhi.
  destruct (coalesce_chain s lo hi Hc Hlen Slo Shi Hlo Hhi)
    as (Hc' & Hcov & Hsum & _ & _).
  set (N := Z.to_nat (2 ^ 30)).
  assert (HN : Z.of_nat N = 2 ^ 30) by (subst N; lia).
  pose proof (coord_range b hi) as Rhi.
  assert (S1 : sum_sizes (entries s)
               = countZ (fun k => covers (entries s) (at_offset b k)) 0 N).
  { apply (size_count b) with (low := 0); try lia; auto.
    pose proof (upper_le b (entries s) 0 ltac:(lia)). lia. }
  assert (S2 : sum_sizes (entries (snd (coalesce s lo hi)))
               = countZ (fun k => covers (entries (snd (coalesce s lo hi)))
                                         (at_offset b k)) 0 N).
  { apply (size_count b) with (low := 0); try lia; auto.
    pose proof (upper_le b (entries (snd (coalesce s lo hi))) 0 ltac:(lia)). lia. }
  rewrite (countZ_add
             (fun k => covers (entries s) (at_offset b k))
             (fun k => (coord b lo <=? k) && (k <=? coord b hi)
                       && negb (covers (entries s) (at_offset b k)))) in S2.
  2:{ intros k Hk. specialize (Hcov (at_offset b k)).
      rewrite coord_at_offset in Hcov by lia.
      destruct (covers (entries s) (at_offset b k)).
      - rewrite (proj2 Hcov) by now left. rewrite andb_false_r. reflexivity.
      - rewrite andb_true_r.
        destruct (Z.leb_spec (coord b lo) k); destruct (Z.leb_spec k (coord b hi));
          cbn [andb];
          try (rewrite (proj2 Hcov) by (right; lia); reflexivity);
          (destruct (covers (entries (snd (coalesce s lo hi))) (at_offset b k));
           [destruct (proj1 Hcov eq_refl) as [G|G]; [discriminate | lia]
           | reflexivity]). }
  rewrite countZ_interval in S2 by lia.
  unfold count_new. rewrite (seqlen_coord b) by lia.
  pose proof (count_from_countZ b (fun x => negb (covers (entries s) x))
                (Z.to_nat (coord b hi - coord b lo + 1)) (coord b lo)) as CF.
  rewrite (at_offset_coord b lo Slo) in CF. rewrite CF. lia.
Qed.

End Coalesce.

Section InsertFacts.

Import SeqNo SndLossList LossListProps.

Lemma insert_unfold (s : t) (lo hi : Z) :
  insert s lo hi
  = if capacity s <? length (snd (coalesce s lo hi)) then (0, s)
    else coalesce s lo hi.
Proof. unfold insert. now destruct (coalesce s lo hi). Qed.

(** A valid insertion into a well-formed list: there is one window in
    which the entries are in order and the range lies. *)
Lemma valid_insert_base (s : t) (lo hi : Z) :
  WF s -> valid_insert s lo hi ->
  exists b, csorted b 0 (entries s) /\
            0 <= coord b lo /\ coord b lo <= coord b hi.
Proof.
  intros ((b0 & Hc) & _) (_ & _ & Hv & b & Hw & Hlo & Hhi).
  exists b. split; [|split; [exact Hlo|]].
  - apply (csorted_rebase b0 b (entries s) 0 0); auto; try lia.
    intros r Hr. destruct (entries s) as [|r0 l]; [discriminate|].
    injection Hr as ->. now destruct (Forall_inv Hw).
  - rewrite (seqoff_coord b) in Hv by lia. lia.
Qed.



Lemma count_from_bounds (p : Z -> bool) (n : nat) :
  forall x, 0 <= count_from p x n <= Z.of_nat n.
Proof.
  induction n as [|n IH]; intros x; [cbn; lia|].
  cbn [count_from]. specialize (IH (incseq x)). unfold ind.
  destruct (p x); lia.
Qed.

Lemma count_new_bounds (l : list Range) (lo hi : Z) :
  0 <= seqoff lo hi -> 0 <= count_new l lo hi <= seqlen lo hi.
Proof.
  intros H. unfold count_new.
  pose proof (count_from_bounds (fun x => negb (covers l x))
                (Z.to_nat (seqlen lo hi)) lo).
  unfold seqlen in *. lia.
Qed.

(** Nothing is new in a range all of whose members are recorded. *)
Lemma count_new_zero (b : Z) (l : list Range) (lo hi : Z) :
  seqno lo -> 0 <= coord b lo -> coord b lo <= coord b hi ->
  (forall x, in_range {| head := lo; tail := hi |} x = true ->
             covers l x = true) ->
  count_new l lo hi = 0.
Proof.
  intros Slo Hlo Hhi Hall. unfold count_new.
  pose proof (coord_range b hi) as Rhi.
  rewrite (seqlen_coord b) by lia.
  pose proof (count_from_countZ b (fun x => negb (covers l x))
                (Z.to_nat (coord b hi - coord b lo + 1)) (coord b lo)) as CF.
  rewrite (at_offset_coord b lo Slo) in CF. rewrite CF.
  apply countZ_false. intros k Hk.
  rewrite Hall; [reflexivity|].
  apply (in_range_coord b); cbn [head tail]; try lia.
  rewrite coord_at_offset by lia. lia.
Qed.

(** What a valid insertion into a well-formed list does. *)
Lemma insert_facts (s : t) (lo hi : Z) :
  WF s -> valid_insert s lo hi ->
  WF (snd (insert s lo hi)) /\
  length (snd (insert s lo hi)) = length s + fst (insert s lo hi) /\
  0 <= fst (insert s lo hi) <= seqlen lo hi /\
  (length s + count_new (entries s) lo hi <= capacity s ->
   fst (insert s lo hi) = count_new (entries s) lo hi /\
   forall b, csorted b 0 (entries s) -> 0 <= coord b lo ->
             coord b lo <= coord b hi ->
             csorted b 0 (entries (snd (insert s lo hi))) /\
             forall x, covers (entries (snd (insert s lo hi))) x = true <->
                       covers (entries s) x = true \/
                       coord b lo <= coord b x <= coord b hi) /\
  (capacity s < length s + count_new (entries s) lo hi ->
   insert s lo hi = (0, s)).
Proof.
  intros W V. pose proof W as (_ & Hlen).
  destruct (valid_insert_base s lo hi W V) as (b & Hc & Hlo & Hhi).
  destruct V as (Slo & Shi & Hv & _).
  pose proof (coalesce_count b s lo hi Hc Hlen Slo Shi Hlo Hhi) as Hcount.
  destruct (coalesce_chain b s lo hi Hc Hlen Slo Shi Hlo Hhi)
    as (Hc' & Hcov & Hsum & Hlen' & Hcap).
  pose proof (count_new_bounds (entries s) lo hi Hv) as Hb.
  rewrite insert_unfold, Hlen', Hcount.
  destruct (Z.ltb_spec (capacity s) (length s + count_new (entries s) lo hi))
    as [Hover|Hfit].
  - cbn [fst snd]. refine (conj W (conj _ (conj _ (conj _ _)))); try lia.
    intros _. reflexivity.
  - rewrite Hcount in *.
    refine (conj _ (conj Hlen' (conj Hb (conj _ _)))); [| |lia].
    + split; [now exists b | lia].
    + intros _. split; [reflexivity|]. intros b1 Hc1 Hlo1 Hhi1.
      destruct (coalesce_chain b1 s lo hi Hc1 Hlen Slo Shi Hlo1 Hhi1)
        as (Hc1' & Hcov1 & _). now split.
Qed.

End InsertFacts.



(** A valid insertion at concrete arguments, in the window that starts at
    sequence number 0, by evaluation. *)
Ltac valid_insert_by_computation :=
  refine (conj _ (conj _ (conj _ (ex_intro _ 0 (conj _ (conj _ _))))));
  [ unfold SeqNo.seqno; lia
  | unfold SeqNo.seqno; lia
  | vm_compute; discriminate
  | unfold LossListProps.in_window;
    match goal with
    | |- Forall _ ?l => let l' := eval vm_compute in l in change l with l'
    end;
    repeat constructor; vm_compute; discriminate
  | vm_compute; discriminate
  | vm_compute; discriminate ].


(** The insert-and-pop tests of [test_list.cpp]. *)
Example insert_pop_scenarios :
  let ins lo hi s := snd (SndLossList.insert s lo hi) in
  let empty := SndLossList.new 256 in
  SndLossList.popLostSeq empty = (-1, empty) /\
  SndLossList.getLossLength empty = 0 /\
  SndLossList.pop_all 20 (ins 2 2 (ins 0 0 (ins 4 4 (ins 1 1 empty))))
  = Some [0; 1; 2; 4] /\
  fst (SndLossList.insert (ins 4 4 (ins 1 2 empty)) 3 3) = 1 /\
  SndLossList.pop_all 20 (ins 3 3 (ins 4 4 (ins 1 2 empty))) = Some [1; 2; 3; 4] /\
  SndLossList.pop_all 20 (ins 1 1 (ins 10000001 10000001 (ins 10000000 10000000 empty)))
  = Some [1; 10000000; 10000001] /\
  fst (SndLossList.insert (SndLossList.remove (ins 3 5 (ins 0 1 empty)) 3) 4 5) = 0.
Proof. vm_compute. repeat split. Qed.

(** The overlap scenarios of the tests: no sequence number is counted
    twice. *)
Example insert_overlap_scenarios :
  let ins lo hi s := snd (SndLossList.insert s lo hi) in
  let s := ins 6 8 (ins 1 5 (SndLossList.new 256)) in
  fst (SndLossList.insert s 2 10) = 2 /\
  SndLossList.pop_all 20 (ins 2 10 s) = Some [1; 2; 3; 4; 5; 6; 7; 8; 9; 10] /\
  fst (SndLossList.insert s 2 7) = 0 /\
  SndLossList.getLossLength (ins 2 7 s) = 8 /\
  fst (SndLossList.insert s 2 5) = 0.
Proof. vm_compute. repeat split. Qed.

(** C4, as stated, fails in two ways.  When the capacity is exhausted:
    the list of capacity 1 that holds the sequence number 1 does not
    hold 3, and [insert(3,3)] returns 0, not 1.  And outside a window:
    after [3 * 2^29], 0 and [2^30 - 1] were inserted (capacity 256),
    which no window of [2^30] sequence numbers holds, [3 * 2^29] is
    recorded, and inserting it again returns 1 and the length goes from
    3 to 4. *)
Lemma insert_returns_new_counterexample :
  (let s := snd (SndLossList.insert (SndLossList.new 1) 1 1) in
   LossListProps.WF s /\ LossListProps.valid_insert s 3 3 /\
   LossListProps.count_new (SndLossList.entries s) 3 3 = 1 /\
   fst (SndLossList.insert s 3 3) = 0 /\
   fst (SndLossList.insert s 3 3)
   <> LossListProps.count_new (SndLossList.entries s) 3 3) /\
  (let ins lo hi s := snd (SndLossList.insert s lo hi) in
   let s := ins 1073741823 1073741823
              (ins 0 0 (ins 1610612736 1610612736 (SndLossList.new 256))) in
   LossListProps.covers (SndLossList.entries s) 1610612736 = true /\
   LossListProps.count_new (SndLossList.entries s) 1610612736 1610612736 = 0 /\
   SndLossList.getLossLength s = 3 /\
   fst (SndLossList.insert s 1610612736 1610612736) = 1 /\
   SndLossList.getLossLength (snd (SndLossList.insert s 1610612736 1610612736))
   = 4).
Proof.
  split.
  - intros s. refine (conj _ (conj _ (conj eq_refl (conj eq_refl _)))).
    + split; [exists 0 | reflexivity]. cbv. repeat split; discriminate.
    + valid_insert_by_computation.
    + vm_compute. discriminate.
  - vm_compute. repeat split.
Qed.

(** C4, amended.  On a well-formed list and for a valid range that lies
    with the entries in one window: when the insertion does not overflow
    the capacity, [insert] returns the number of sequence numbers of the
    range that the list did not hold; and, with or without overflow,
    inserting a range all of whose members the list holds returns 0 and
    leaves the length unchanged, as does inserting the same range a
    second time. *)
Theorem insert_returns_new (s : SndLossList.t) (lo hi : Z) :
  LossListProps.WF s -> LossListProps.valid_insert s lo hi ->
  (SndLossList.getLossLength s
   + LossListProps.count_new (SndLossList.entries s) lo hi
   <= SndLossList.capacity s ->
   fst (SndLossList.insert s lo hi)
   = LossListProps.count_new (SndLossList.entries s) lo hi) /\
  ((forall x,
      LossListProps.in_range {| SndLossList.head := lo; SndLossList.tail := hi |} x
      = true ->
      LossListProps.covers (SndLossList.entries s) x = true) ->
   fst (SndLossList.insert s lo hi) = 0 /\
   SndLossList.getLossLength (snd (SndLossList.insert s lo hi))
   = SndLossList.getLossLength s) /\
  (let s1 := snd (SndLossList.insert s lo hi) in
   fst (SndLossList.insert s1 lo hi) = 0 /\
   SndLossList.getLossLength (snd (SndLossList.insert s1 lo hi))
   = SndLossList.getLossLength s1).
Proof.
  intros W V.
  destruct (valid_insert_base s lo hi W V) as (b & Hc & Hlo & Hhi).
  pose proof V as (Slo & Shi & Hv & _).
  destruct (insert_facts s lo hi W V) as (W1 & Hlen & Hb & Hfit & Hover).
  assert (Hpresent :
    forall s0, LossListProps.WF s0 -> LossListProps.valid_insert s0 lo hi ->
      LossListProps.count_new (SndLossList.entries s0) lo hi = 0 ->
      fst (SndLossList.insert s0 lo hi) = 0 /\
      SndLossList.getLossLength (snd (SndLossList.insert s0 lo hi))
      = SndLossList.getLossLength s0).
  { intros s0 W0 V0 Z0.
    destruct (insert_facts s0 lo hi W0 V0) as (_ & Hlen0 & _ & Hfit0 & Hover0).
    unfold SndLossList.getLossLength.
    destruct (Z_le_gt_dec (SndLossList.length s0
                           + LossListProps.count_new (SndLossList.entries s0) lo hi)
                          (SndLossList.capacity s0)) as [F|O].
    - destruct (Hfit0 F) as (E & _). rewrite Hlen0, E, Z0. lia.
    - rewrite Hover0 by lia. cbn [fst snd]. lia. }
  refine (conj _ (conj _ _)).
  - intros F. now destruct (Hfit F).
  - intros Hall. apply Hpresent; auto.
    apply (count_new_zero b); auto.
  - cbv zeta.
    destruct (Z_le_gt_dec (SndLossList.length s
                           + LossListProps.count_new (SndLossList.entries s) lo hi)
                          (SndLossList.capacity s)) as [F|O].
    + destruct (Hfit F) as (_ & Hchain).
      destruct (Hchain b Hc Hlo Hhi) as (Hc1 & Hcov1).
      apply Hpresent; auto.
      * refine (conj Slo (conj Shi (conj Hv (ex_intro _ b (conj _ (conj Hlo _)))))).
        -- apply (csorted_in_window b) with (low := 0); [lia | exact Hc1].
        -- lia.
      * apply (count_new_zero b); auto.
        intros x Hx. apply Hcov1. right.
        apply (in_range_coord b) in Hx; cbn [SndLossList.head SndLossList.tail] in *;
          lia.
    + rewrite (Hover ltac:(lia)). cbn [snd]. rewrite (Hover ltac:(lia)).
      cbn [fst snd]. split; reflexivity.
Qed.

Lemma insert_returns_new_witness :
  let s := snd (SndLossList.insert
                  (snd (SndLossList.insert (SndLossList.new 256) 1 5)) 6 8) in
  (let s1 := snd (SndLossList.insert s 2 10) in
   fst (SndLossList.insert s1 2 10) = 0 /\
   SndLossList.getLossLength (snd (SndLossList.insert s1 2 10))
   = SndLossList.getLossLength s1).
Proof.
  intros s. refine (proj2 (proj2 (insert_returns_new s 2 10 _ _))).
  - split; [exists 0 | reflexivity]. cbv. repeat split; discriminate.
  - valid_insert_by_computation.
Defined.




(** ** Runs of operations *)

Section Runs.

Import SeqNo SndLossList LossListProps.








End Runs.




(* ================================================================== *)
(** * Part III.  Further properties of the code                        *)
(* ================================================================== *)

(** ** Table lookups that stay inside their tables *)

Section TableLookups.

Import Common CommonNames.

Lemma size_t_negative (x : Z) : - 2 ^ 31 <= x < 0 -> size_t x = x + 2 ^ 64.
Proof.
  intros H. unfold size_t, UInt64.wrap, UInt64.modulus.
  symmetry. apply Z.mod_unique with (q := -1); lia.
Qed.

Lemma size_t_nonneg (x : Z) : 0 <= x < 2 ^ 64 -> size_t x = x.
Proof. intros H. unfold size_t. now apply UInt64_wrap_small. Qed.

(** Reading a table at an index inside it gives its element. *)
Lemma index_in_bounds (arr : list string) (i : Z) :
  0 <= i < Size arr ->
  exists s, nth_error arr (Z.to_nat i) = Some s /\ index arr i = Value s.
Proof.
  intros H. unfold index, Size in *.
  destruct (Z.ltb_spec i 0); [lia|].
  destruct (nth_error arr (Z.to_nat i)) as [s|] eqn:E.
  - now exists s.
  - apply nth_error_None in E. lia.
Qed.

End TableLookups.

(** [TransmissionEventStr] never reads outside its table: an event from 0
    to 7 gives its name, every other [int] gives ["UNKNOWN"]. *)
Theorem TransmissionEventStr_total (ev : Z) :
  - 2 ^ 31 <= ev < 2 ^ 31 ->
  (0 <= ev < 8 ->
   exists s, nth_error CommonNames.vals (Z.to_nat ev) = Some s /\
             CommonNames.TransmissionEventStr ev = Common.Value s) /\
  (~ 0 <= ev < 8 ->
   CommonNames.TransmissionEventStr ev = Common.Value "UNKNOWN").
Proof.
  intros Hr. unfold CommonNames.TransmissionEventStr.
  change (Common.Size CommonNames.vals) with 8.
  split; intros H.
  - rewrite size_t_nonneg by lia.
    destruct (Z.leb_spec 8 ev); [lia|].
    apply index_in_bounds. change (Common.Size CommonNames.vals) with 8. lia.
  - destruct (Z_lt_le_dec ev 0).
    + rewrite size_t_negative by lia.
      destruct (Z.leb_spec 8 (ev + 2 ^ 64)); [reflexivity | lia].
    + rewrite size_t_nonneg by lia.
      destruct (Z.leb_spec 8 ev); [reflexivity | lia].
Qed.

Lemma TransmissionEventStr_total_witness :
  (exists s, nth_error CommonNames.vals (Z.to_nat 5) = Some s /\
             CommonNames.TransmissionEventStr 5 = Common.Value s).
Proof.
  refine (proj1 (TransmissionEventStr_total 5 _) _); lia.
Defined.

(** [srt_rejectreason_str] never reads outside its table: a reason from 0
    to 15 gives its message, every other [int] gives the message of
    reason 0. *)
Theorem srt_rejectreason_str_total (rid : Z) :
  - 2 ^ 31 <= rid < 2 ^ 31 ->
  (0 <= rid < 16 ->
   exists s, nth_error CommonNames.srt_rejectreason_msg (Z.to_nat rid) = Some s /\
             CommonNames.srt_rejectreason_str rid = Common.Value s) /\
  (~ 0 <= rid < 16 ->
   CommonNames.srt_rejectreason_str rid = Common.Value "Unknown or erroneous").
Proof.
  intros Hr. unfold CommonNames.srt_rejectreason_str.
  change (Common.Size CommonNames.srt_rejectreason_msg) with 16.
  split; intros H.
  - rewrite size_t_nonneg by lia.
    destruct (Z.leb_spec 16 rid); [lia|].
    apply index_in_bounds.
    change (Common.Size CommonNames.srt_rejectreason_msg) with 16. lia.
  - destruct (Z_lt_le_dec rid 0).
    + rewrite size_t_negative by lia.
      destruct (Z.leb_spec 16 (rid + 2 ^ 64)); [reflexivity | lia].
    + rewrite size_t_nonneg by lia.
      destruct (Z.leb_spec 16 rid); [reflexivity | lia].
Qed.

Lemma srt_rejectreason_str_total_witness :
  CommonNames.srt_rejectreason_str (-3) = Common.Value "Unknown or erroneous".
Proof.
  refine (proj2 (srt_rejectreason_str_total (-3) _) _); lia.
Defined.

(** For an extension message ([mt] is [UMSG_EXT]) [MessageTypeStr] never
    reads outside [srt_types]: an extension type from 0 to 7 gives its
    name, every other [uint32_t] gives ["EXT:unknown"]. *)
Theorem MessageTypeStr_ext_total (UMSG_EXT extt : Z) :
  0 <= extt < 2 ^ 32 ->
  (extt < 8 ->
   exists s, nth_error Common.srt_types (Z.to_nat extt) = Some s /\
             Common.MessageTypeStr UMSG_EXT UMSG_EXT extt = Common.Value s) /\
  (8 <= extt ->
   Common.MessageTypeStr UMSG_EXT UMSG_EXT extt = Common.Value "EXT:unknown").
Proof.
  intros Hr. unfold Common.MessageTypeStr. rewrite Z.eqb_refl.
  change (Common.Size Common.srt_types) with 8.
  split; intros H.
  - destruct (Z.leb_spec 8 extt); [lia|].
    apply index_in_bounds. change (Common.Size Common.srt_types) with 8. lia.
  - destruct (Z.leb_spec 8 extt); [reflexivity | lia].
Qed.

Lemma MessageTypeStr_ext_total_witness :
  Common.MessageTypeStr 32767 32767 4294967295 = Common.Value "EXT:unknown".
Proof.
  refine (proj2 (MessageTypeStr_ext_total 32767 4294967295 _) _); lia.
Defined.

(** Away from the boundary value 9 the guard of [MessageTypeStr] works:
    a control type other than [UMSG_EXT] and 9 gives ["unknown"] or
    the entry of [udt_types] at an index inside the table. *)
Theorem MessageTypeStr_off_boundary (UMSG_EXT mt extt : Z) :
  - 2 ^ 31 <= mt < 2 ^ 31 -> mt <> UMSG_EXT -> mt <> 9 ->
  (0 <= mt < 9 ->
   exists s, nth_error Common.udt_types (Z.to_nat mt) = Some s /\
             Common.MessageTypeStr UMSG_EXT mt extt = Common.Value s) /\
  (~ 0 <= mt < 9 ->
   Common.MessageTypeStr UMSG_EXT mt extt = Common.Value "unknown").
Proof.
  intros Hr Hne H9. unfold Common.MessageTypeStr.
  destruct (Z.eqb_spec mt UMSG_EXT) as [|_]; [contradiction|].
  change (Common.Size Common.udt_types) with 9.
  split; intros H.
  - rewrite size_t_nonneg by lia.
    destruct (Z.ltb_spec 9 mt); [lia|].
    apply index_in_bounds. change (Common.Size Common.udt_types) with 9. lia.
  - destruct (Z_lt_le_dec mt 0).
    + rewrite size_t_negative by lia.
      destruct (Z.ltb_spec 9 (mt + 2 ^ 64)); [reflexivity | lia].
    + rewrite size_t_nonneg by lia.
      destruct (Z.ltb_spec 9 mt); [reflexivity | lia].
Qed.

Lemma MessageTypeStr_off_boundary_witness :
  Common.MessageTypeStr 32767 (-1) 0 = Common.Value "unknown".
Proof.
  refine (proj2 (MessageTypeStr_off_boundary 32767 (-1) 0 _ _ _) _);
    try lia; discriminate.
Defined.

(** ** The error code of an exception *)

(** [getErrorCode] packs the major and the minor code reversibly: for a
    major code from 0 to 2147482 and a minor code from 0 to 999 the code is
    [major * 1000 + minor], its quotient by 1000 is the major code and its
    remainder the minor code, whatever the error number. *)
Theorem getErrorCode_decodes (NET_ERROR major minor err : Z) :
  0 <= major <= 2147482 -> 0 <= minor < 1000 ->
  let code := UDTException.getErrorCode
                (UDTException.make NET_ERROR major minor err) in
  code = major * 1000 + minor /\
  Z.quot code 1000 = major /\ Z.rem code 1000 = minor.
Proof.
  intros Hmj Hmn code. subst code.
  unfold UDTException.getErrorCode, UDTException.make, UDTException.UDT_XCODE,
    UDTException.int_wrap.
  cbn [UDTException.m_iMajor UDTException.m_iMinor].
  assert (E1 : (major * 1000 + 2 ^ 31) mod 2 ^ 32 - 2 ^ 31 = major * 1000)
    by (rewrite Z.mod_small; lia).
  rewrite E1.
  assert (E2 : (major * 1000 + minor + 2 ^ 31) mod 2 ^ 32 - 2 ^ 31
               = major * 1000 + minor)
    by (rewrite Z.mod_small; lia).
  rewrite E2. split; [reflexivity|].
  rewrite Z.quot_div_nonneg, Z.rem_mod_nonneg by lia.
  split.
  - symmetry. apply Z.div_unique with (r := minor); lia.
  - symmetry. apply Z.mod_unique with (q := major); lia.
Qed.

Lemma getErrorCode_decodes_witness :
  let code := UDTException.getErrorCode (UDTException.make 11 5 12 (-1)) in
  code = 5 * 1000 + 12 /\ Z.quot code 1000 = 5 /\ Z.rem code 1000 = 12.
Proof.
  apply (getErrorCode_decodes 11 5 12 (-1)); lia.
Defined.

(** ** Durations, microseconds and deadlines *)

Section DurationFacts.

Import Sync.

(** The truncating quotient by a positive divisor, with its remainder. *)
Lemma quot_rem_bounds (t f : Z) :
  0 < f ->
  t = f * Z.quot t f + Z.rem t f /\
  (0 <= t -> 0 <= Z.rem t f < f /\ 0 <= Z.quot t f <= t) /\
  (t <= 0 -> - f < Z.rem t f <= 0 /\ t <= Z.quot t f <= 0).
Proof.
  intros Hf. pose proof (Z.quot_rem' t f) as E.
  pose proof (Z.rem_bound_abs t f ltac:(lia)) as B.
  split; [exact E|]. split; intros H.
  - pose proof (Z.rem_nonneg t f ltac:(lia) H).
    pose proof (Z.quot_pos t f H Hf). split; [lia | nia].
  - pose proof (Z.rem_nonpos t f ltac:(lia) H).
    assert (Z.quot t f <= 0).
    { pose proof (Z.quot_opp_l t f ltac:(lia)) as O.
      pose proof (Z.quot_pos (- t) f ltac:(lia) Hf). lia. }
    split; [lia | nia].
Qed.

Lemma Int64_div_in_range (t f : Z) :
  0 < f -> Int64.in_range t ->
  Int64.div t f = Z.quot t f /\ Int64.in_range (Z.quot t f).
Proof.
  intros Hf Ht. destruct (quot_rem_bounds t f Hf) as (_ & P & N).
  assert (R : Int64.in_range (Z.quot t f)).
  { unfold Int64.in_range, Int64.min_signed, Int64.max_signed in *.
    destruct (Z_le_gt_dec 0 t); [specialize (P ltac:(lia)) | specialize (N ltac:(lia))];
      lia. }
  split; [|exact R]. unfold Int64.div. now apply Int64_wrap_in_range.
Qed.

End DurationFacts.

(** Counting the microseconds of a duration rounds toward zero and loses
    less than one microsecond (one microsecond is [s_cpu_frequency]
    ticks): converted back, a non-negative duration [t] gives a duration
    in [(t - f, t]], a negative one a duration in [[t, t + f)]. *)
Theorem count_microseconds_truncates (f t : Z) :
  0 < f -> Int64.in_range t ->
  let t' := Sync.microseconds_from f (Sync.count_microseconds f t) in
  (0 <= t -> t - f < t' <= t) /\ (t <= 0 -> t <= t' < t + f).
Proof.
  intros Hf Ht t'. subst t'.
  unfold Sync.count_microseconds, Sync.microseconds_from, Int64.mul.
  rewrite (proj1 (Int64_div_in_range t f Hf Ht)).
  destruct (quot_rem_bounds t f Hf) as (E & P & N).
  assert (R : Int64.in_range (Z.quot t f * f)).
  { unfold Int64.in_range, Int64.min_signed, Int64.max_signed in *.
    destruct (Z_le_gt_dec 0 t); [specialize (P ltac:(lia)) | specialize (N ltac:(lia))];
      lia. }
  rewrite (Int64_wrap_in_range _ R).
  split; intros H; [specialize (P H) | specialize (N H)]; lia.
Qed.

Lemma count_microseconds_truncates_witness :
  let t' := Sync.microseconds_from 2400 (Sync.count_microseconds 2400 (-5000)) in
  -5000 <= t' < -5000 + 2400.
Proof.
  refine (proj2 (count_microseconds_truncates 2400 (-5000) _ _) _); try lia.
  unfold Int64.in_range, Int64.min_signed, Int64.max_signed. lia.
Defined.

(** The counters are monotone and agree with one another: a longer
    duration never counts fewer microseconds, the milliseconds are the
    microseconds divided by 1000 and the seconds are the milliseconds
    divided by 1000, all rounded toward zero. *)
Theorem counters_monotone_and_consistent (f t1 t2 : Z) :
  0 < f -> Int64.in_range t1 -> Int64.in_range t2 -> t1 <= t2 ->
  Sync.count_microseconds f t1 <= Sync.count_microseconds f t2 /\
  Sync.count_milliseconds f t1 = Z.quot (Sync.count_microseconds f t1) 1000 /\
  Sync.count_seconds f t1 = Z.quot (Sync.count_milliseconds f t1) 1000 /\
  Sync.count_seconds f t1 <= Sync.count_seconds f t2.
Proof.
  intros Hf H1 H2 Hle.
  unfold Sync.count_microseconds, Sync.count_milliseconds, Sync.count_seconds.
  destruct (Int64_div_in_range t1 f Hf H1) as (E1 & R1).
  destruct (Int64_div_in_range t2 f Hf H2) as (E2 & R2).
  rewrite E1, E2.
  destruct (Int64_div_in_range (Z.quot t1 f) 1000 ltac:(lia) R1) as (A1 & _).
  destruct (Int64_div_in_range (Z.quot t1 f) 1000000 ltac:(lia) R1) as (B1 & _).
  destruct (Int64_div_in_range (Z.quot t2 f) 1000000 ltac:(lia) R2) as (B2 & _).
  rewrite A1, B1, B2.
  refine (conj _ (conj eq_refl (conj _ _))).
  - apply Z.quot_le_mono; lia.
  - rewrite (Z.quot_quot (Z.quot t1 f) 1000 1000) by lia. reflexivity.
  - apply Z.quot_le_mono; [lia|]. apply Z.quot_le_mono; lia.
Qed.

Lemma counters_monotone_and_consistent_witness :
  Sync.count_microseconds 2400 (-5000) <= Sync.count_microseconds 2400 7200000 /\
  Sync.count_milliseconds 2400 (-5000)
  = Z.quot (Sync.count_microseconds 2400 (-5000)) 1000 /\
  Sync.count_seconds 2400 (-5000)
  = Z.quot (Sync.count_milliseconds 2400 (-5000)) 1000 /\
  Sync.count_seconds 2400 (-5000) <= Sync.count_seconds 2400 7200000.
Proof.
  apply (counters_monotone_and_consistent 2400 (-5000) 7200000); try lia;
    unfold Int64.in_range, Int64.min_signed, Int64.max_signed; lia.
Defined.

(** [us_to_timespec] gives a normalised [timespec] (nanoseconds below one
    second, a whole number of microseconds), and the microsecond count
    that [wait_for] forms from a [timespec] gives the microseconds back. *)
Theorem us_to_timespec_roundtrip (time_us : Z) :
  0 <= time_us < 2 ^ 64 ->
  let ts := Cond.us_to_timespec time_us in
  0 <= Cond.tv_sec ts /\ 0 <= Cond.tv_nsec ts < 1000000000 /\
  Cond.tv_nsec ts mod 1000 = 0 /\
  UInt64.add (UInt64.mul (UInt64.wrap (Cond.tv_sec ts)) 1000000)
             (UInt64.wrap (Z.quot (Cond.tv_nsec ts) 1000))
  = time_us.
Proof.
  intros H ts. subst ts.
  unfold Cond.us_to_timespec, UInt64.div, UInt64.rem, UInt64.mul, UInt64.add.
  cbn [Cond.tv_sec Cond.tv_nsec].
  pose proof (Z.div_mod time_us 1000000 ltac:(lia)) as E.
  pose proof (Z.mod_pos_bound time_us 1000000 ltac:(lia)) as B.
  assert (0 <= time_us / 1000000 <= time_us).
  { split; [apply Z.div_pos; lia|]. apply Z.div_le_upper_bound; lia. }
  rewrite (UInt64_wrap_small (time_us mod 1000000 * 1000)) by lia.
  rewrite (UInt64_wrap_small (time_us / 1000000)) by lia.
  rewrite (UInt64_wrap_small (time_us / 1000000 * 1000000)) by lia.
  rewrite Z.quot_div_nonneg by lia. rewrite Z.div_mul by lia.
  rewrite (UInt64_wrap_small (time_us mod 1000000)) by lia.
  rewrite UInt64_wrap_small by lia.
  refine (conj _ (conj _ (conj _ _))); try lia.
  apply Z.mod_mul. lia.
Qed.

Lemma us_to_timespec_roundtrip_witness :
  let ts := Cond.us_to_timespec 18446744073709551615 in
  0 <= Cond.tv_sec ts /\ 0 <= Cond.tv_nsec ts < 1000000000 /\
  Cond.tv_nsec ts mod 1000 = 0 /\
  UInt64.add (UInt64.mul (UInt64.wrap (Cond.tv_sec ts)) 1000000)
             (UInt64.wrap (Z.quot (Cond.tv_nsec ts) 1000))
  = 18446744073709551615.
Proof.
  apply (us_to_timespec_roundtrip 18446744073709551615). lia.
Defined.

(** The deadline of [wait_for]: with a valid clock reading of [now_us]
    microseconds and a relative time of [rel] ticks, of either sign,
    such that [now_us + rel / f] is a [uint64_t], the one timed wait that
    is performed has that many microseconds as its deadline (the
    conversion of a negative count to unsigned cancels out), and the
    result is [false] exactly when the wait returned [ETIMEDOUT]. *)
Theorem wait_for_deadline
  (f ETIMEDOUT lock : Z) (rel : Sync.duration) (w : Cond.World) :
  let ts := Cond.clock w (Cond.clock_reads w) in
  let now_us := Cond.tv_sec ts * 1000000 + Cond.tv_nsec ts / 1000 in
  0 < f -> Int64.in_range rel ->
  0 <= Cond.tv_sec ts -> 0 <= Cond.tv_nsec ts < 1000000000 ->
  now_us < 2 ^ 64 -> 0 <= now_us + Z.quot rel f < 2 ^ 64 ->
  Cond.wait_for f ETIMEDOUT lock rel w
  = (negb (Cond.timedwait_rc w (List.length (Cond.timedwaits w)) =? ETIMEDOUT),
     snd (Cond.wait_for f ETIMEDOUT lock rel w)) /\
  Cond.timedwaits (snd (Cond.wait_for f ETIMEDOUT lock rel w))
  = (lock, Cond.us_to_timespec (now_us + Z.quot rel f)) :: Cond.timedwaits w.
Proof.
  intros ts now_us Hf Hrel Hsec Hnsec Hnow Hdl.
  unfold Cond.wait_for, Cond.bind, Cond.clock_gettime, Cond.pthread_cond_timedwait,
    Cond.ret.
  cbn [fst snd Cond.timedwaits Cond.timedwait_rc Cond.clock Cond.clock_reads].
  fold ts. split; [reflexivity|]. f_equal. f_equal. f_equal.
  unfold Sync.count_microseconds.
  rewrite (proj1 (Int64_div_in_range rel f Hf Hrel)).
  unfold UInt64.add, UInt64.mul.
  assert (Hq : 0 <= Cond.tv_nsec ts / 1000) by (apply Z.div_pos; lia).
  rewrite Z.quot_div_nonneg by lia.
  rewrite (UInt64_wrap_small (Cond.tv_sec ts)) by (subst now_us; lia).
  rewrite (UInt64_wrap_small (Cond.tv_sec ts * 1000000)) by (subst now_us; lia).
  rewrite (UInt64_wrap_small (Cond.tv_nsec ts / 1000)) by (subst now_us; lia).
  rewrite (UInt64_wrap_small (Cond.tv_sec ts * 1000000 + Cond.tv_nsec ts / 1000))
    by (subst now_us; lia).
  fold now_us. unfold UInt64.wrap, UInt64.modulus.
  rewrite Z.add_mod_idemp_r by lia. apply Z.mod_small. lia.
Qed.

Lemma wait_for_deadline_witness :
  let w := {| Cond.tsc := fun _ => 0; Cond.tsc_reads := 0;
              Cond.clock := fun _ => {| Cond.tv_sec := 10; Cond.tv_nsec := 500000 |};
              Cond.clock_reads := 0;
              Cond.timedwait_rc := fun _ => 110;
              Cond.timedwaits := [] |} in
  Cond.timedwaits (snd (Cond.wait_for 2400 110 7 (-4800) w))
  = [(7, Cond.us_to_timespec (10 * 1000000 + 500000 / 1000 + Z.quot (-4800) 2400))].
Proof.
  intros w.
  refine (proj2 (wait_for_deadline 2400 110 7 (-4800) w _ _ _ _ _ _));
    cbn; try lia.
  unfold Int64.in_range, Int64.min_signed, Int64.max_signed. lia.
Defined.

(** [wait_until] performs at most one timed wait, and it returns [true]
    only after a timed wait that did not time out: exactly when the clock
    reading is before the deadline and [pthread_cond_timedwait] returned
    something other than [ETIMEDOUT]. *)
Theorem wait_until_true_iff
  (f ETIMEDOUT lock : Z) (tp : Sync.time_point) (w : Cond.World) :
  let t := UInt64.wrap (Cond.tsc w (Cond.tsc_reads w)) in
  let rc := Cond.timedwait_rc w (List.length (Cond.timedwaits w)) in
  let r := Cond.wait_until f ETIMEDOUT lock tp w in
  (fst r = true <-> t < tp /\ rc <> ETIMEDOUT) /\
  List.length (Cond.timedwaits (snd r))
  = (List.length (Cond.timedwaits w) + (if (t <? tp)%Z then 1 else 0))%nat /\
  Cond.tsc_reads (snd r) = S (Cond.tsc_reads w).
Proof.
  intros t rc r. subst r.
  unfold Cond.wait_until, Cond.now, Cond.bind, Cond.rdtsc, Cond.ret, Sync.tp_ge.
  fold t.
  destruct (Z.leb_spec tp t) as [Hle|Hlt]; destruct (Z.ltb_spec t tp); try lia.
  - cbn [fst snd Cond.timedwaits Cond.tsc_reads].
    refine (conj _ (conj _ eq_refl)); [|lia].
    split; [discriminate | lia].
  - unfold Cond.wait_for, Cond.bind, Cond.clock_gettime,
      Cond.pthread_cond_timedwait, Cond.ret.
    cbn [fst snd Cond.timedwaits Cond.tsc_reads Cond.timedwait_rc List.length].
    fold rc. refine (conj _ (conj _ eq_refl)); [|lia].
    destruct (Z.eqb_spec rc ETIMEDOUT); cbn [negb]; split;
      try discriminate; try tauto; intros; split; auto.
Qed.

(** ** Scoped locks and the event *)

Section LockFacts.

Import Event.

(** Once [m_iLocked] is not 0, [unlock()] does nothing. *)
Lemma unlock_times_released (n : nat) :
  forall (l : UniqueLock) (w : World),
    m_iLocked l <> 0 -> unlock_times n l w = (l, w).
Proof.
  induction n as [|n IH]; intros l w H; [reflexivity|].
  cbn [unlock_times]. unfold bind, UniqueLock_unlock.
  destruct (Z.eqb_spec (m_iLocked l) 0); [contradiction|].
  unfold ret. now apply IH.
Qed.

End LockFacts.

(** A [UniqueLock] unlocks its mutex exactly once when locking succeeded
    and never when it failed, however many times [unlock()] is called
    before the destructor runs. *)
Theorem UniqueLock_unlocks_once (m : Z) (n : nat) (w : Event.World) :
  let '(l, w1) := Event.UniqueLock_ctor m w in
  let '(l', w2) := Event.unlock_times n l w1 in
  let '(_, w3) := Event.UniqueLock_dtor l' w2 in
  Event.mutex_calls w3
  = (if Event.lock_rc w (List.length (Event.mutex_calls w)) =? 0
     then [Event.Unlock m] else [])
    ++ Event.Lock m :: Event.mutex_calls w.
Proof.
  unfold Event.UniqueLock_ctor, Event.bind, Event.Mutex_lock, Event.ret.
  set (rc := Event.lock_rc w (List.length (Event.mutex_calls w))).
  destruct (Z.eqb_spec rc 0) as [E|E].
  - destruct n as [|n].
    + cbn [Event.unlock_times]. unfold Event.ret, Event.UniqueLock_dtor,
        Event.bind, Event.UniqueLock_unlock.
      cbn [Event.m_iLocked Event.m_Mutex]. rewrite E. reflexivity.
    + cbn [Event.unlock_times]. unfold Event.bind at 1.
      unfold Event.UniqueLock_unlock at 1. cbn [Event.m_iLocked Event.m_Mutex].
      rewrite E. cbn [Z.eqb]. unfold Event.bind at 1, Event.Mutex_unlock, Event.ret.
      rewrite unlock_times_released by (cbn; discriminate).
      reflexivity.
  - rewrite unlock_times_released by (cbn; exact E).
    unfold Event.UniqueLock_dtor, Event.bind, Event.UniqueLock_unlock.
    cbn [Event.m_iLocked]. destruct (Z.eqb_spec rc 0); [contradiction|].
    reflexivity.
Qed.

(** [lock_wait_until] and [lock_wait_for] release the mutex of the event
    on every path: after either, the mutex calls are one lock followed by
    one unlock (no unlock when locking failed), and what they return and
    do to the condition variable is what [wait_until] and [wait_for] do
    with that mutex. *)
Theorem lock_wait_releases_mutex
  (f ETIMEDOUT m : Z) (tp : Sync.time_point) (rel : Sync.duration)
  (w : Event.World) :
  let released :=
    (if Event.lock_rc w (List.length (Event.mutex_calls w)) =? 0
     then [Event.Unlock m] else [])
    ++ Event.Lock m :: Event.mutex_calls w in
  (Event.mutex_calls (snd (Event.lock_wait_until f ETIMEDOUT m tp w)) = released /\
   fst (Event.lock_wait_until f ETIMEDOUT m tp w)
   = fst (Cond.wait_until f ETIMEDOUT m tp (Event.cond_world w)) /\
   Event.cond_world (snd (Event.lock_wait_until f ETIMEDOUT m tp w))
   = snd (Cond.wait_until f ETIMEDOUT m tp (Event.cond_world w))) /\
  (Event.mutex_calls (snd (Event.lock_wait_for f ETIMEDOUT m rel w)) = released /\
   fst (Event.lock_wait_for f ETIMEDOUT m rel w)
   = fst (Cond.wait_for f ETIMEDOUT m rel (Event.cond_world w)) /\
   Event.cond_world (snd (Event.lock_wait_for f ETIMEDOUT m rel w))
   = snd (Cond.wait_for f ETIMEDOUT m rel (Event.cond_world w))).
Proof.
  intros released. subst released.
  unfold Event.lock_wait_until, Event.lock_wait_for, Event.UniqueLock_ctor,
    Event.UniqueLock_dtor, Event.UniqueLock_unlock, Event.UniqueLock_mutex,
    Event.bind, Event.Mutex_lock, Event.Mutex_unlock, Event.ret, Event.lift.
  cbn [Event.m_iLocked Event.m_Mutex Event.cond_world Event.mutex_calls
       Event.lock_rc Event.unlock_rc].
  set (rc := Event.lock_rc w (List.length (Event.mutex_calls w))).
  destruct (Cond.wait_until f ETIMEDOUT m tp (Event.cond_world w)) as (r1, c1).
  destruct (Cond.wait_for f ETIMEDOUT m rel (Event.cond_world w)) as (r2, c2).
  destruct (rc =? 0); cbn; repeat split.
Qed.

(** ** Socket addresses *)

Section Words.

Import IPAddress.

Lemma int_wrap_cong (z : Z) : exists k, UDTException.int_wrap z = z + k * 2 ^ 32.
Proof.
  unfold UDTException.int_wrap.
  exists (- ((z + 2 ^ 31) / 2 ^ 32)).
  pose proof (Z.div_mod (z + 2 ^ 31) (2 ^ 32) ltac:(lia)). lia.
Qed.

(** Four bytes put together by shifts and additions on [int] and stored
    in a [uint32_t] are the little-endian word of the bytes, also when
    the top byte makes the [int] negative. *)
Lemma word_of_value (b3 b2 b1 b0 : Z) :
  0 <= b0 < 256 -> 0 <= b1 < 256 -> 0 <= b2 < 256 -> 0 <= b3 < 256 ->
  word_of b3 b2 b1 b0 = b0 + 2 ^ 8 * b1 + 2 ^ 16 * b2 + 2 ^ 24 * b3.
Proof.
  intros H0 H1 H2 H3. unfold word_of, to_uint32, int_add, int_shl.
  rewrite !Z.shiftl_mul_pow2 by lia.
  destruct (int_wrap_cong (b3 * 2 ^ 24)) as (k1 & ->).
  destruct (int_wrap_cong (b2 * 2 ^ 16)) as (k2 & ->).
  destruct (int_wrap_cong (b1 * 2 ^ 8)) as (k3 & ->).
  destruct (int_wrap_cong (b3 * 2 ^ 24 + k1 * 2 ^ 32 + (b2 * 2 ^ 16 + k2 * 2 ^ 32)))
    as (k4 & ->).
  match goal with |- UDTException.int_wrap (UDTException.int_wrap ?x + _) mod _ = _ =>
    destruct (int_wrap_cong x) as (k5 & ->) end.
  match goal with |- UDTException.int_wrap ?x mod _ = _ =>
    destruct (int_wrap_cong x) as (k6 & ->) end.
  symmetry. apply Z.mod_unique with (q := k1 + k2 + k3 + k4 + k5 + k6); lia.
Qed.

Lemma extract_byte (x n : Z) :
  0 <= n ->
  Z.shiftr (Z.land x (Z.shiftl 255 n)) n = (x / 2 ^ n) mod 2 ^ 8.
Proof.
  intros Hn. rewrite Z.shiftr_land, Z.shiftr_shiftl_l by lia.
  rewrite Z.sub_diag, Z.shiftl_0_r. change 255 with (Z.ones 8).
  rewrite Z.land_ones by lia. now rewrite Z.shiftr_div_pow2 by lia.
Qed.

(** The four bytes that [pton] stores for a word. *)
Lemma pton_bytes (x : Z) :
  to_uchar (Z.land x 255) = x mod 2 ^ 8 /\
  to_uchar (Z.shiftr (Z.land x 65280) 8) = (x / 2 ^ 8) mod 2 ^ 8 /\
  to_uchar (Z.shiftr (Z.land x 16711680) 16) = (x / 2 ^ 16) mod 2 ^ 8 /\
  to_uchar (Z.shiftr (Z.land x 4278190080) 24) = (x / 2 ^ 24) mod 2 ^ 8.
Proof.
  unfold to_uchar.
  change 65280 with (Z.shiftl 255 8). change 16711680 with (Z.shiftl 255 16).
  change 4278190080 with (Z.shiftl 255 24).
  pose proof (extract_byte x 0 ltac:(lia)) as E0.
  rewrite Z.shiftr_0_r, Z.shiftl_0_r, Z.pow_0_r, Z.div_1_r in E0.
  rewrite E0, !extract_byte by lia.
  rewrite !Z.mod_mod by lia. repeat split.
Qed.


(** A [uint32_t] is the word of its four bytes. *)
Lemma word_of_bytes (x : Z) :
  0 <= x < 2 ^ 32 ->
  word_of ((x / 2 ^ 24) mod 2 ^ 8) ((x / 2 ^ 16) mod 2 ^ 8)
          ((x / 2 ^ 8) mod 2 ^ 8) (x mod 2 ^ 8) = x.
Proof.
  intros H.
  rewrite word_of_value by (apply Z.mod_pos_bound; lia).
  assert (Q2 : x / 2 ^ 16 = x / 2 ^ 8 / 2 ^ 8) by (now rewrite Z.div_div by lia).
  assert (Q3 : x / 2 ^ 24 = x / 2 ^ 16 / 2 ^ 8) by (now rewrite Z.div_div by lia).
  assert (Q4 : x / 2 ^ 24 / 2 ^ 8 = 0)
    by (rewrite Z.div_div by lia; apply Z.div_small; lia).
  pose proof (Z.div_mod x (2 ^ 8) ltac:(lia)) as E0.
  pose proof (Z.div_mod (x / 2 ^ 8) (2 ^ 8) ltac:(lia)) as E1.
  pose proof (Z.div_mod (x / 2 ^ 16) (2 ^ 8) ltac:(lia)) as E2.
  pose proof (Z.div_mod (x / 2 ^ 24) (2 ^ 8) ltac:(lia)) as E3.
  rewrite <- Q2 in E1. rewrite <- Q3 in E2. rewrite Q4 in E3.
  lia.
Qed.

End Words.

(** The elements of a list of known length, by name. *)
Ltac list_elements l :=
  repeat (let b := fresh "b" in destruct l as [|b l]; [discriminate|]);
  destruct l; [|discriminate].

Ltac forall_bounds :=
  repeat match goal with
         | H : Forall _ (_ :: _) |- _ =>
             let H1 := fresh "B" in
             pose proof (Forall_inv H) as H1; apply Forall_inv_tail in H;
             cbv beta in H1
         end.



(** [ntop] after [pton] gives the four words back, whatever the array
    held before, and [pton] writes sixteen bytes and nothing else. *)
Theorem ntop_pton_ipv6
  (AF_INET ver : Z) (a : IPAddress.sockaddr_in6) (ip ip0 : list Z) :
  AF_INET <> ver -> List.length (IPAddress.s6_addr a) = 16%nat ->
  IPAddress.words4 ip -> List.length ip0 = 4%nat ->
  exists a',
    IPAddress.pton AF_INET (IPAddress.Sin6 a) ip ver = Some (IPAddress.Sin6 a') /\
    IPAddress.ntop (IPAddress.Sin6 a') ip0 = ip /\
    IPAddress.bytes16 (IPAddress.s6_addr a') /\
    IPAddress.sin6_port a' = IPAddress.sin6_port a /\
    IPAddress.sin6_flowinfo a' = IPAddress.sin6_flowinfo a /\
    IPAddress.sin6_scope_id a' = IPAddress.sin6_scope_id a.
Proof.
  intros Hver Hlen (Hip & Hw) Hip0. unfold IPAddress.pton.
  destruct (Z.eqb_spec AF_INET ver); [contradiction|].
  eexists. split; [reflexivity|].
  destruct a as [port flow bytes scope]. cbn [IPAddress.s6_addr] in *.
  cbn [IPAddress.sin6_port IPAddress.sin6_flowinfo IPAddress.sin6_scope_id
       IPAddress.s6_addr].
  list_elements bytes. list_elements ip. list_elements ip0. forall_bounds.
  refine (conj _ (conj _ (conj eq_refl (conj eq_refl eq_refl)))).
  - cbv [IPAddress.ntop IPAddress.set_nth IPAddress.pton_step fold_left seq nth
         firstn skipn app List.length Nat.ltb Nat.leb Nat.mul Nat.add
         IPAddress.s6_addr].
    repeat match goal with
           | |- context [IPAddress.to_uchar (Z.land ?x 255)] =>
               let P0 := fresh "P" in let P1 := fresh "P" in
               let P2 := fresh "P" in let P3 := fresh "P" in
               destruct (pton_bytes x) as (P0 & P1 & P2 & P3);
               rewrite P0, P1, P2, P3; clear P0 P1 P2 P3
           end.
    rewrite !word_of_bytes by lia. reflexivity.
  - split; [reflexivity|].
    cbv [IPAddress.ntop IPAddress.set_nth IPAddress.pton_step fold_left seq nth
           firstn skipn app List.length Nat.ltb Nat.leb Nat.mul Nat.add
           IPAddress.s6_addr].
    unfold IPAddress.to_uchar.
    repeat constructor; apply Z.mod_pos_bound; lia.
Qed.

Lemma ntop_pton_ipv6_witness :
  let a := {| IPAddress.sin6_port := 4200; IPAddress.sin6_flowinfo := 0;
              IPAddress.s6_addr := repeat 0 16;
              IPAddress.sin6_scope_id := 0 |} in
  exists a',
    IPAddress.pton 2 (IPAddress.Sin6 a) [33022; 0; 4281018882; 4283317502] 10
    = Some (IPAddress.Sin6 a') /\
    IPAddress.ntop (IPAddress.Sin6 a') [7; 7; 7; 7]
    = [33022; 0; 4281018882; 4283317502].
Proof.
  intros a.
  destruct (ntop_pton_ipv6 2 10 a [33022; 0; 4281018882; 4283317502] [7; 7; 7; 7])
    as (a' & H1 & H2 & _).
  - discriminate.
  - reflexivity.
  - split; [reflexivity|]. repeat constructor; discriminate.
  - reflexivity.
  - exists a'. split; assumption.
Defined.

(** For an IPv4 address [ntop] writes the first word only: the other
    three words of the array keep what they held; and [pton] after [ntop]
    carries the address over. *)
Theorem ntop_pton_ipv4
  (AF_INET : Z) (a a0 : IPAddress.sockaddr_in) (ip : list Z) :
  (1 <= List.length ip)%nat ->
  IPAddress.pton AF_INET (IPAddress.Sin a)
                 (IPAddress.ntop (IPAddress.Sin a0) ip) AF_INET
  = Some (IPAddress.Sin {| IPAddress.sin_port := IPAddress.sin_port a;
                           IPAddress.s_addr := IPAddress.s_addr a0 |}) /\
  List.length (IPAddress.ntop (IPAddress.Sin a0) ip) = List.length ip /\
  forall i, (0 < i)%nat ->
            nth i (IPAddress.ntop (IPAddress.Sin a0) ip) 0 = nth i ip 0.
Proof.
  intros H. unfold IPAddress.pton, IPAddress.ntop, IPAddress.set_nth.
  rewrite Z.eqb_refl. destruct ip as [|x ip]; [cbn in H; lia|].
  cbn [List.length Nat.ltb Nat.leb firstn skipn app nth].
  refine (conj eq_refl (conj eq_refl _)).
  intros [|i] Hi; [lia | reflexivity].
Qed.

Lemma ntop_pton_ipv4_witness :
  (1 <= List.length [1; 2; 3; 4])%nat /\
  IPAddress.pton 2 (IPAddress.Sin {| IPAddress.sin_port := 80;
                                     IPAddress.s_addr := 0 |})
                 (IPAddress.ntop
                    (IPAddress.Sin {| IPAddress.sin_port := 443;
                                      IPAddress.s_addr := 16777343 |})
                    [1; 2; 3; 4]) 2
  = Some (IPAddress.Sin {| IPAddress.sin_port := 80;
                           IPAddress.s_addr := 16777343 |}) /\
  nth 2 (IPAddress.ntop
           (IPAddress.Sin {| IPAddress.sin_port := 443;
                             IPAddress.s_addr := 16777343 |})
           [1; 2; 3; 4]) 0
  = nth 2 [1; 2; 3; 4] 0.
Proof.
  assert (H : (1 <= List.length [1; 2; 3; 4])%nat) by (cbn; lia).
  refine (conj H _).
  destruct (ntop_pton_ipv4 2
              {| IPAddress.sin_port := 80; IPAddress.s_addr := 0 |}
              {| IPAddress.sin_port := 443; IPAddress.s_addr := 16777343 |}
              [1; 2; 3; 4] H) as (E & _ & N).
  refine (conj E (N 2%nat _)). lia.
Defined.

Section Compare.

Import IPAddress.

Lemma ipcmp_bytes_spec (b1 b2 : list Z) (n : nat) :
  forall i,
    ipcmp_bytes b1 b2 i n = true <->
    (forall j, (i <= j < i + n)%nat -> nth j b1 0 = nth j b2 0).
Proof.
  induction n as [|n IH]; intros i; cbn [ipcmp_bytes].
  - split; [intros _ j Hj; lia | reflexivity].
  - destruct (Z.eqb_spec (nth i b1 0) (nth i b2 0)) as [E|E]; cbn [negb].
    + rewrite IH. split; intros H j Hj.
      * destruct (Nat.eq_dec j i) as [->|]; [exact E | apply H; lia].
      * apply H. lia.
    + split; [discriminate|]. intros H. exfalso. apply E. apply H. lia.
Qed.

End Compare.

(** [ipcmp] says [true] exactly for the same endpoint: for IPv6, when the
    ports are equal and the sixteen address bytes are equal (the flow
    information and the scope are not looked at); for IPv4, when the
    ports and the addresses are equal.  Otherwise it says [false]. *)
Theorem ipcmp_iff_same_endpoint
  (AF_INET ver : Z) (a1 a2 : IPAddress.sockaddr_in6)
  (c1 c2 : IPAddress.sockaddr_in) :
  AF_INET <> ver ->
  List.length (IPAddress.s6_addr a1) = 16%nat ->
  List.length (IPAddress.s6_addr a2) = 16%nat ->
  (exists r, IPAddress.ipcmp AF_INET (IPAddress.Sin6 a1) (IPAddress.Sin6 a2) ver
             = Some r /\
             (r = true <->
              IPAddress.sin6_port a1 = IPAddress.sin6_port a2 /\
              IPAddress.s6_addr a1 = IPAddress.s6_addr a2)) /\
  (exists r, IPAddress.ipcmp AF_INET (IPAddress.Sin c1) (IPAddress.Sin c2) AF_INET
             = Some r /\ (r = true <-> c1 = c2)).
Proof.
  intros Hver L1 L2. split.
  - unfold IPAddress.ipcmp. destruct (Z.eqb_spec AF_INET ver); [contradiction|].
    eexists. split; [reflexivity|].
    destruct (Z.eqb_spec (IPAddress.sin6_port a1) (IPAddress.sin6_port a2)) as [E|E].
    + rewrite ipcmp_bytes_spec. split.
      * intros H. split; [exact E|].
        apply nth_ext with (d := 0) (d' := 0); [congruence|].
        intros j Hj. apply H. lia.
      * intros (_ & ->) j _. reflexivity.
    + split; [discriminate | tauto].
  - unfold IPAddress.ipcmp. rewrite Z.eqb_refl.
    eexists. split; [reflexivity|].
    destruct c1 as [p1 s1], c2 as [p2 s2].
    cbn [IPAddress.sin_port IPAddress.s_addr].
    destruct (Z.eqb_spec p1 p2); destruct (Z.eqb_spec s1 s2); cbn [andb];
      split; intros H; try discriminate; try congruence.
Qed.

Lemma ipcmp_iff_same_endpoint_witness :
  let a1 := {| IPAddress.sin6_port := 4200; IPAddress.sin6_flowinfo := 1;
               IPAddress.s6_addr := repeat 0 15 ++ [1];
               IPAddress.sin6_scope_id := 0 |} in
  let a2 := {| IPAddress.sin6_port := 4200; IPAddress.sin6_flowinfo := 9;
               IPAddress.s6_addr := repeat 0 15 ++ [1];
               IPAddress.sin6_scope_id := 3 |} in
  exists r, IPAddress.ipcmp 2 (IPAddress.Sin6 a1) (IPAddress.Sin6 a2) 10 = Some r /\
            (r = true <->
             IPAddress.sin6_port a1 = IPAddress.sin6_port a2 /\
             IPAddress.s6_addr a1 = IPAddress.s6_addr a2).
Proof.
  intros a1 a2.
  refine (proj1 (ipcmp_iff_same_endpoint 2 10 a1 a2
                   {| IPAddress.sin_port := 0; IPAddress.s_addr := 0 |}
                   {| IPAddress.sin_port := 0; IPAddress.s_addr := 0 |} _ _ _));
    [discriminate | reflexivity | reflexivity].
Defined.

(** ** The message of an exception *)

Section ErrorMessages.

Import UDTException.
Local Open Scope string_scope.

Variables MJ_SUCCESS MJ_SETUP MJ_CONNECTION MJ_SYSTEMRES MJ_FILESYSTEM
          MJ_NOTSUP MJ_AGAIN MJ_PEERERROR : Z.
Variables MN_TIMEOUT MN_REJECTED MN_NORES MN_SECURITY : Z.
Variables MN_CONNLOST MN_NOCONN : Z.
Variables MN_THREAD MN_MEMORY : Z.
Variables MN_SEEKGFAIL MN_READFAIL MN_SEEKPFAIL MN_WRITEFAIL : Z.
Variables MN_ISBOUND MN_ISCONNECTED MN_INVAL MN_SIDINVAL MN_ISUNBOUND
          MN_NOLISTEN MN_ISRENDEZVOUS MN_ISRENDUNBOUND MN_INVALMSGAPI
          MN_INVALBUFFERAPI MN_BUSY MN_XSIZE MN_EIDINVAL MN_EEMPTY : Z.
Variables MN_WRAVAIL MN_RDAVAIL MN_XMTIMEOUT MN_CONGESTION : Z.
Variable SRT_ENABLE_ECN : bool.
Variable SysStrError : Z -> string.

Local Notation "'getErrorString'" :=
  (UDTErrorString.getErrorString
     MJ_SUCCESS MJ_SETUP MJ_CONNECTION MJ_SYSTEMRES MJ_FILESYSTEM
     MJ_NOTSUP MJ_AGAIN MJ_PEERERROR
     MN_TIMEOUT MN_REJECTED MN_NORES MN_SECURITY
     MN_CONNLOST MN_NOCONN MN_THREAD MN_MEMORY
     MN_SEEKGFAIL MN_READFAIL MN_SEEKPFAIL MN_WRITEFAIL
     MN_ISBOUND MN_ISCONNECTED MN_INVAL MN_SIDINVAL MN_ISUNBOUND
     MN_NOLISTEN MN_ISRENDEZVOUS MN_ISRENDUNBOUND MN_INVALMSGAPI
     MN_INVALBUFFERAPI MN_BUSY MN_XSIZE MN_EIDINVAL MN_EEMPTY
     MN_WRAVAIL MN_RDAVAIL MN_XMTIMEOUT MN_CONGESTION
     SRT_ENABLE_ECN SysStrError).

(** [getErrorString] builds the message afresh, whatever [m_strMsg] held,
    except for a connection error ([MJ_CONNECTION]) whose minor code has
    no [case]: there nothing is assigned, so the message of the last call
    stays and the text of the error number is appended to it once more,
    and the message grows with every call. *)
Theorem getErrorString_stale_message (e : CUDTException) (prev prev' : string) :
  MJ_SUCCESS <> MJ_CONNECTION -> MJ_SETUP <> MJ_CONNECTION ->
  (m_iMajor e = MJ_CONNECTION ->
   m_iMinor e <> MN_CONNLOST -> m_iMinor e <> MN_NOCONN ->
   getErrorString e prev
   = prev ++ UDTErrorString.errno_suffix SysStrError e /\
   getErrorString e (getErrorString e prev)
   = (prev ++ UDTErrorString.errno_suffix SysStrError e)
     ++ UDTErrorString.errno_suffix SysStrError e) /\
  (m_iMajor e <> MJ_CONNECTION \/
   m_iMinor e = MN_CONNLOST \/ m_iMinor e = MN_NOCONN ->
   getErrorString e prev = getErrorString e prev' /\
   getErrorString e (getErrorString e prev) = getErrorString e prev).
Proof.
  intros D1 D2. split.
  - intros Hmaj Hc Hn.
    assert (Once : forall p, getErrorString e p
                             = p ++ UDTErrorString.errno_suffix SysStrError e).
    { intros p. unfold UDTErrorString.getErrorString, UDTErrorString.errno_suffix.
      cbn [UDTErrorString.switch]. rewrite Hmaj.
      destruct (Z.eqb_spec MJ_CONNECTION MJ_SUCCESS); [congruence|].
      destruct (Z.eqb_spec MJ_CONNECTION MJ_SETUP); [congruence|].
      rewrite Z.eqb_refl.
      destruct (Z.eqb_spec (m_iMinor e) MN_CONNLOST); [contradiction|].
      destruct (Z.eqb_spec (m_iMinor e) MN_NOCONN); [contradiction|].
      destruct (Z.eqb_spec MJ_SUCCESS MJ_CONNECTION); [contradiction|].
      cbn [negb andb]. destruct (0 <? m_iErrno e)%Z; [reflexivity|].
      now rewrite string_app_nil_r. }
    split; [apply Once|]. now rewrite !Once.
  - intros H.
    assert (Fresh : forall p p', getErrorString e p = getErrorString e p').
    { intros p p'. unfold UDTErrorString.getErrorString.
      cbn [UDTErrorString.switch].
      repeat match goal with
             | |- context [(?a =? ?b)%Z] => destruct (Z.eqb_spec a b)
             end;
        try reflexivity; exfalso; destruct H as [H|[H|H]]; congruence. }
    split; apply Fresh.
Qed.

End ErrorMessages.

Lemma getErrorString_stale_message_witness :
  let e := {| UDTException.m_iMajor := 2; UDTException.m_iMinor := 7;
              UDTException.m_iErrno := 104 |} in
  let text := fun _ : Z => "Connection reset by peer"%string in
  UDTErrorString.getErrorString
    0 1 2 3 4 5 6 7  1 2 3 4  1 2  1 2  1 2 3 4
    1 2 3 4 5 6 7 8 9 10 11 12 13 14  1 2 3 4  false text e ""
  = (String.append "" (UDTErrorString.errno_suffix text e)).
Proof.
  intros e text.
  refine (proj1 (proj1 (getErrorString_stale_message
    0 1 2 3 4 5 6 7  1 2 3 4  1 2  1 2  1 2 3 4
    1 2 3 4 5 6 7 8 9 10 11 12 13 14  1 2 3 4  false text e "" ""
    _ _) _ _ _)); try discriminate; reflexivity.
Defined.

(** ** The text of an IPv6 address *)

Section ShowAddress.

Import IPAddress IPShow.
Local Open Scope string_scope.

Lemma firstn_skipn_step (l : list Z) (i k : nat) :
  (i < List.length l)%nat ->
  firstn (S k) (skipn i l) = nth i l 0%Z :: firstn k (skipn (S i) l).
Proof.
  revert i. induction l as [|x l IH]; intros i H; [cbn in H; lia|].
  destruct i as [|i]; [reflexivity|].
  cbn [skipn nth]. apply IH. cbn in H. lia.
Qed.

(** What the loop appends: the hexadecimal texts of the non-zero bytes
    that are left, each preceded by a colon, except the very first text
    written to the stream. *)
Lemma ShowIP6_loop_spec (bytes : list Z) (n : nat) :
  forall (i : nat) (os : string) (sep : bool),
    (i + n <= List.length bytes)%nat ->
    let texts :=
      map hex (filter (fun v => negb (v =? 0)%Z) (firstn n (skipn i bytes))) in
    ShowIP6_loop bytes i n os sep
    = os ++ (if sep then String.concat "" (map (String.append ":") texts)
             else String.concat ":" texts).
Proof.
  induction n as [|n IH]; intros i os sep H texts; subst texts.
  - cbn. destruct sep; now rewrite string_app_nil_r.
  - rewrite firstn_skipn_step by lia. cbn [ShowIP6_loop filter].
    destruct (Z.eqb_spec (nth i bytes 0%Z) 0) as [E|E]; cbn [negb].
    + apply IH. lia.
    + rewrite IH by lia. cbn [map].
      set (rest := map hex (filter (fun v => negb (v =? 0)%Z)
                              (firstn n (skipn (S i) bytes)))).
      assert (C0 : forall x l, String.concat "" (x :: l) = x ++ String.concat "" l).
      { intros x [|y l]; cbn; [now rewrite string_app_nil_r | reflexivity]. }
      assert (C : forall l x, String.concat ":" (x :: l)
                  = x ++ String.concat "" (map (String.append ":") l)).
      { induction l as [|y l IHl]; intros x.
        - cbn. now rewrite string_app_nil_r.
        - change (String.concat ":" (x :: y :: l))
            with (x ++ ":" ++ String.concat ":" (y :: l)).
          rewrite IHl. cbn [map]. rewrite C0, !string_app_assoc. reflexivity. }
      destruct sep.
      * rewrite C0, !string_app_assoc. reflexivity.
      * rewrite C, !string_app_assoc. reflexivity.
Qed.

End ShowAddress.

(** [ShowIP6] prints the hexadecimal texts of the non-zero bytes of the
    address in order, separated by colons; zero bytes leave no trace, so
    the text of the all-zero address is empty and addresses that differ
    only in where their zero bytes are have the same text. *)
Theorem ShowIP6_nonzero_bytes (a : IPAddress.sockaddr_in6) :
  List.length (IPAddress.s6_addr a) = 16%nat ->
  IPShow.ShowIP6 a
  = String.concat ":"
      (map IPShow.hex
           (filter (fun v => negb (v =? 0)) (IPAddress.s6_addr a))).
Proof.
  intros H. unfold IPShow.ShowIP6.
  rewrite ShowIP6_loop_spec by lia.
  cbn [skipn String.append]. rewrite <- H, firstn_all. reflexivity.
Qed.

Lemma ShowIP6_nonzero_bytes_witness :
  IPShow.ShowIP6
    {| IPAddress.sin6_port := 0; IPAddress.sin6_flowinfo := 0;
       IPAddress.s6_addr :=
         [254; 128; 0; 0; 0; 0; 0; 0; 2; 26; 43; 255; 254; 60; 77; 10];
       IPAddress.sin6_scope_id := 0 |}
  = "FE:80:2:1A:2B:FF:FE:3C:4D:A"%string.
Proof.
  rewrite ShowIP6_nonzero_bytes by reflexivity. reflexivity.
Defined.

(** ** The timer *)

Section TimerFacts.

Import Event Timer.

Variable f ETIMEDOUT : Z.

(** A wait on the event reads the tick counter once and leaves the
    values it will give as they are. *)
Lemma lock_wait_until_clock (m : Z) (tp : Sync.time_point) (w : World) :
  let w' := snd (lock_wait_until f ETIMEDOUT m tp w) in
  Cond.tsc (cond_world w') = Cond.tsc (cond_world w) /\
  Cond.tsc_reads (cond_world w') = S (Cond.tsc_reads (cond_world w)).
Proof.
  unfold lock_wait_until, UniqueLock_ctor, UniqueLock_dtor, UniqueLock_unlock,
    UniqueLock_mutex, bind, Mutex_lock, Mutex_unlock, ret, lift.
  cbn [m_iLocked m_Mutex cond_world mutex_calls lock_rc unlock_rc].
  unfold Cond.wait_until, Cond.now, Cond.bind, Cond.rdtsc, Cond.ret.
  destruct (Sync.tp_ge _ tp).
  - destruct (lock_rc w _ =? 0); cbn; split; reflexivity.
  - unfold Cond.wait_for, Cond.bind, Cond.clock_gettime,
      Cond.pthread_cond_timedwait, Cond.ret.
    destruct (lock_rc w _ =? 0); cbn; split; reflexivity.
Qed.

(** Reading the clock gives the next value of the tick counter. *)
Lemma lift_now_clock (w : World) :
  fst (lift Cond.now w) = reading w 0 /\
  Cond.tsc (cond_world (snd (lift Cond.now w))) = Cond.tsc (cond_world w) /\
  Cond.tsc_reads (cond_world (snd (lift Cond.now w)))
  = S (Cond.tsc_reads (cond_world w)).
Proof.
  unfold lift, Cond.now, Cond.bind, Cond.rdtsc, Cond.ret, reading. cbn.
  rewrite Nat.add_0_r. repeat split.
Qed.

Lemma sleep_loop_never_false (m : Z) (tp : Sync.time_point) (fuel : nat) :
  forall (cur : Z) (w : World),
    fst (sleep_loop f ETIMEDOUT fuel m tp cur w) <> Some false.
Proof.
  induction fuel as [|fuel IH]; intros cur w; cbn [sleep_loop].
  - cbn. discriminate.
  - destruct (Z.ltb_spec cur tp) as [H|H].
    + unfold bind.
      destruct (lock_wait_until f ETIMEDOUT m tp w) as (r, w1).
      destruct (lift Cond.now w1) as (cur', w2). apply IH.
    + unfold ret, Sync.tp_ge. cbn [fst].
      destruct (Z.leb_spec tp cur); [discriminate | lia].
Qed.

(** The loop ends at the first reading taken after a wait that is not
    before the deadline. *)
Lemma sleep_loop_returns (m : Z) (tp : Sync.time_point) (n : nat) :
  forall (fuel : nat) (cur : Z) (w : World),
    (n < fuel)%nat ->
    (forall k, (k < n)%nat ->
               match k with O => cur | S k' => reading w (2 * k' + 1) end < tp) ->
    tp <= match n with O => cur | S n' => reading w (2 * n' + 1) end ->
    fst (sleep_loop f ETIMEDOUT fuel m tp cur w) = Some true /\
    Cond.tsc_reads (cond_world (snd (sleep_loop f ETIMEDOUT fuel m tp cur w)))
    = (Cond.tsc_reads (cond_world w) + 2 * n)%nat.
Proof.
  induction n as [|n IH]; intros fuel cur w Hf Hlt Hge;
    (destruct fuel as [|fuel]; [lia|]); cbn [sleep_loop].
  - destruct (Z.ltb_spec cur tp); [lia|]. unfold ret, Sync.tp_ge. cbn [fst snd].
    destruct (Z.leb_spec tp cur); [|lia]. split; [reflexivity | lia].
  - pose proof (Hlt O ltac:(lia)) as H0. cbn in H0.
    destruct (Z.ltb_spec cur tp); [|lia]. unfold bind.
    pose proof (lock_wait_until_clock m tp w) as (T1 & R1).
    destruct (lock_wait_until f ETIMEDOUT m tp w) as (r, w1). cbn [snd] in T1, R1.
    pose proof (lift_now_clock w1) as (N0 & T2 & R2).
    destruct (lift Cond.now w1) as (cur', w2). cbn [fst snd] in N0, T2, R2.
    assert (E : forall j, reading w2 j = reading w (S (S j))).
    { intros j. unfold reading. rewrite T2, R2, T1, R1. do 2 f_equal. lia. }
    assert (Ec : cur' = reading w 1).
    { rewrite N0. unfold reading. rewrite T1, R1. do 2 f_equal. lia. }
    destruct (IH fuel cur' w2 ltac:(lia)) as (I1 & I2).
    + intros k Hk. specialize (Hlt (S k) ltac:(lia)). cbn beta iota in Hlt.
      destruct k as [|k'].
      * rewrite Ec. replace (2 * 0 + 1)%nat with 1%nat in Hlt by lia. exact Hlt.
      * rewrite E. replace (S (S (2 * k' + 1))) with (2 * S k' + 1)%nat by lia.
        exact Hlt.
    + destruct n as [|n'].
      * rewrite Ec. replace (2 * 0 + 1)%nat with 1%nat in Hge by lia. exact Hge.
      * rewrite E. replace (S (S (2 * n' + 1))) with (2 * S n' + 1)%nat by lia.
        exact Hge.
    + split; [exact I1|]. rewrite I2, R2, R1. lia.
Qed.

End TimerFacts.

(** [sleep_until] never returns [false] (with no interrupt, leaving the
    loop means that the clock has reached the deadline); and it returns
    [true] at the first of its own clock readings (every second reading
    of the counter, the others being taken inside the waits) that is not
    before the deadline, after as many waits on the event as readings
    were before it. *)
Theorem sleep_until_returns_at_deadline
  (f ETIMEDOUT m : Z) (tp : Sync.time_point) (w : Event.World) (n fuel : nat) :
  (forall k, (k < n)%nat -> Timer.reading w (2 * k) < tp) ->
  tp <= Timer.reading w (2 * n) -> (n < fuel)%nat ->
  (forall fuel', fst (Timer.sleep_until f ETIMEDOUT fuel' m tp w) <> Some false) /\
  fst (Timer.sleep_until f ETIMEDOUT fuel m tp w) = Some true /\
  Cond.tsc_reads
    (Event.cond_world (snd (Timer.sleep_until f ETIMEDOUT fuel m tp w)))
  = (Cond.tsc_reads (Event.cond_world w) + 2 * n + 1)%nat.
Proof.
  intros Hlt Hge Hf. split.
  - intros fuel'. unfold Timer.sleep_until, Event.bind, Event.Mutex_lock,
      Event.Mutex_unlock.
    destruct (Event.lift Cond.now _) as (cur, w1). apply sleep_loop_never_false.
  - unfold Timer.sleep_until, Event.bind, Event.Mutex_lock, Event.Mutex_unlock.
    match goal with
    | |- context [Event.lift Cond.now ?ww] => set (w0 := ww)
    end.
    pose proof (lift_now_clock w0) as (N0 & T1 & R1).
    destruct (Event.lift Cond.now w0) as (cur, w1). cbn [fst snd] in N0, T1, R1.
    assert (E : forall j, Timer.reading w1 j = Timer.reading w (S j)).
    { intros j. unfold Timer.reading. rewrite T1, R1. unfold w0.
      cbn [Event.cond_world]. do 2 f_equal. lia. }
    assert (Ec : cur = Timer.reading w 0).
    { rewrite N0. reflexivity. }
    destruct (sleep_loop_returns f ETIMEDOUT m tp n fuel cur w1 Hf) as (I1 & I2).
    + intros k Hk. specialize (Hlt k Hk). destruct k as [|k'].
      * rewrite Ec. exact Hlt.
      * rewrite E. replace (S (2 * k' + 1)) with (2 * S k')%nat by lia. exact Hlt.
    + destruct n as [|n'].
      * rewrite Ec. exact Hge.
      * rewrite E. replace (S (2 * n' + 1)) with (2 * S n')%nat by lia. exact Hge.
    + split; [exact I1|]. rewrite I2, R1. unfold w0.
      cbn [Event.cond_world]. lia.
Qed.

Lemma sleep_until_returns_at_deadline_witness :
  let w := {| Event.cond_world :=
                {| Cond.tsc := fun k => Z.of_nat k * 1000; Cond.tsc_reads := 0;
                   Cond.clock := fun _ => {| Cond.tv_sec := 10; Cond.tv_nsec := 0 |};
                   Cond.clock_reads := 0;
                   Cond.timedwait_rc := fun _ => 110;
                   Cond.timedwaits := [] |};
              Event.lock_rc := fun _ => 0; Event.unlock_rc := fun _ => 0;
              Event.mutex_calls := [] |} in
  fst (Timer.sleep_until 1 110 5 9 3500 w) = Some true.
Proof.
  intros w.
  refine (proj1 (proj2 (sleep_until_returns_at_deadline 1 110 9 3500 w 2 5 _ _ _))).
  - intros [|[|k]] Hk; try lia; vm_compute; reflexivity.
  - vm_compute. discriminate.
  - lia.
Defined.
